(** * computeSizing: the sizing aggregator of [src/App.tsx]

    A shallow embedding of the three functions that carry the logic of the
    page: [getSizingFromNumberOfWeeks], [computeSizing] and the input
    handler [handleSetSignal], together with the JavaScript string
    primitives they call.

    Numbers.  JavaScript numbers are binary64 floats.  Every finite one is
    a rational, and [<=] on finite floats is the order of the rationals, so
    numbers are embedded as [Q].  The literal [3 / 5] is the float nearest
    to three fifths; no float lies strictly between the two, so comparing a
    float against either gives the same answer, and the table below keeps
    the exact value.  Rounding inside the sums of [computeSizing] is not
    modelled: sums are exact.

    Strings.  A string is a sequence of code units; the embedding uses
    [string], whose characters are the code units 0..255. *)

From Stdlib Require Import List Bool Arith Lia.
From Stdlib Require Import Ascii String.
From Stdlib Require Import ZArith QArith Lqa.
From Stdlib Require Import Permutation.
Import ListNotations.

Local Close Scope Q_scope.
Local Open Scope nat_scope.
Local Open Scope list_scope.
Local Open Scope string_scope.

(** ** The size labels and their table *)

(** [type Size = 'XS' | 'S' | 'M' | 'L' | 'XL' | 'XXL'].  The label ['S']
    is written [S_]: [S] is the successor of [nat]. *)
Inductive Size : Set := XS | S_ | M | L | XL | XXL.

Definition Size_eqb (a b : Size) : bool :=
  match a, b with
  | XS, XS | S_, S_ | M, M | L, L | XL, XL | XXL, XXL => true
  | _, _ => false
  end.

(** The string a label is at run time. *)
Definition Size_to_string (s : Size) : string :=
  match s with
  | XS => "XS" | S_ => "S" | M => "M" | L => "L" | XL => "XL" | XXL => "XXL"
  end.

(** Position of a label in the order XS < S < M < L < XL < XXL. *)
Definition rank (s : Size) : nat :=
  match s with
  | XS => 0 | S_ => 1 | M => 2 | L => 3 | XL => 4 | XXL => 5
  end.

(** [const sizingToWeeks: Record<Size, number>], as the list of its
    entries in insertion order, which is the order [Object.keys] and
    [Object.entries] enumerate. *)
Definition sizingToWeeks : list (Size * Q) :=
  [ (XS, 3 # 5); (S_, 1); (M, 3); (L, 6); (XL, 14); (XXL, 16) ]%Q.

(** [Object.keys(sizingToWeeks)]. *)
Definition sizingKeys : list string :=
  map (fun e => Size_to_string (fst e)) sizingToWeeks.

(** [sizingToWeeks[size]] for a key of the record. *)
Definition weeksOf (size : Size) : Q :=
  match find (fun e => Size_eqb (fst e) size) sizingToWeeks with
  | Some e => snd e
  | None => 0%Q
  end.

(** ** The threshold mapper *)

(** One turn of the loop of [getSizingFromNumberOfWeeks]. *)
Definition thresholdStep (numberOfWeeks : Q) (actualSize : Size)
    (entry : Size * Q) : Size :=
  let (size, week) := entry in
  if Qle_bool numberOfWeeks week then size else actualSize.

(** [getSizingFromNumberOfWeeks]: [actualSize] starts at ['XXL'] and the
    entries are visited in reverse. *)
Definition getSizingFromNumberOfWeeks (numberOfWeeks : Q) : Size :=
  fold_left (thresholdStep numberOfWeeks) (rev sizingToWeeks) XXL.

(** ** JavaScript string and array primitives *)

Module JS.

(** [s.includes(pat)]: [pat] occurs somewhere in [s]. *)
Fixpoint includes (s pat : string) : bool :=
  prefix pat s ||
  match s with
  | EmptyString => false
  | String _ rest => includes rest pat
  end.

(** [arr.includes(x)] on an array of strings. *)
Definition Array_includes (arr : list string) (x : string) : bool :=
  existsb (String.eqb x) arr.

(** [s.replaceAll(pat, rep)] for a non-empty string pattern [pat] and a
    replacement without [$]: the occurrences of [pat] are found from left
    to right, in one pass, and do not overlap.  [skip] counts the code
    units of a match that are still to be dropped. *)
Fixpoint replaceAllFrom (pat rep : string) (skip : nat) (s : string) : string :=
  match s with
  | EmptyString => EmptyString
  | String c rest =>
      match skip with
      | S k => replaceAllFrom pat rep k rest
      | O =>
          if prefix pat s
          then rep ++ replaceAllFrom pat rep (String.length pat - 1) rest
          else String c (replaceAllFrom pat rep 0 rest)
      end
  end.

Definition replaceAll (pat rep s : string) : string :=
  replaceAllFrom pat rep 0 s.

(** White space and line terminators among the code units 0..255:
    TAB, LF, VT, FF, CR, SP and NBSP. *)
Definition isWhiteSpace (c : ascii) : bool :=
  let n := nat_of_ascii c in
  (((9 <=? n) && (n <=? 13)) || (n =? 32) || (n =? 160))%nat.

Fixpoint trimStart (s : string) : string :=
  match s with
  | EmptyString => EmptyString
  | String c rest => if isWhiteSpace c then trimStart rest else s
  end.

Fixpoint trimEnd (s : string) : string :=
  match s with
  | EmptyString => EmptyString
  | String c rest =>
      match trimEnd rest with
      | EmptyString => if isWhiteSpace c then EmptyString else String c EmptyString
      | kept => String c kept
      end
  end.

(** [s.trim()]. *)
Definition trim (s : string) : string := trimEnd (trimStart s).

(** [s.split(sep)] for a separator of one code unit: the pieces between
    the separators, empty pieces included; the empty string gives one
    empty piece. *)
Fixpoint split (sep : ascii) (s : string) : list string :=
  match s with
  | EmptyString => [EmptyString]
  | String c rest =>
      if Ascii.eqb c sep then EmptyString :: split sep rest
      else match split sep rest with
           | piece :: pieces => String c piece :: pieces
           | [] => [String c EmptyString]
           end
  end.

End JS.

(** ** The aggregator *)

(** The value of one entry of [sizeCount]: [{ min: number; max: number }]. *)
Record MinMax : Set := { min : nat; max : nat }.

(** [sizeCount], as the list of its entries in insertion order. *)
Definition SizeCount : Set := list (Size * MinMax).

Definition sizeCount0 : SizeCount :=
  map (fun size => (size, {| min := 0; max := 0 |})) [XS; S_; M; L; XL; XXL].

(** The key of [sizeCount] a string names, if any.  Indexing [sizeCount]
    with any other string gives [undefined], and reading [.min] or [.max]
    of it throws. *)
Definition Size_of_string (s : string) : option Size :=
  find (fun size => String.eqb (Size_to_string size) s) [XS; S_; M; L; XL; XXL].

(** [sizeCount[key].min += 1] and [sizeCount[key].max += 1]. *)
Definition incrMin (key : Size) (sizeCount : SizeCount) : SizeCount :=
  map (fun e => if Size_eqb (fst e) key
                then (fst e, {| min := min (snd e) + 1; max := max (snd e) |})
                else e) sizeCount.

Definition incrMax (key : Size) (sizeCount : SizeCount) : SizeCount :=
  map (fun e => if Size_eqb (fst e) key
                then (fst e, {| min := min (snd e); max := max (snd e) + 1 |})
                else e) sizeCount.

(** [sizeCount[key].min] and [sizeCount[key].max]. *)
Definition minCount (sizeCount : SizeCount) (key : Size) : nat :=
  match find (fun e => Size_eqb (fst e) key) sizeCount with
  | Some e => min (snd e)
  | None => 0
  end.

Definition maxCount (sizeCount : SizeCount) (key : Size) : nat :=
  match find (fun e => Size_eqb (fst e) key) sizeCount with
  | Some e => max (snd e)
  | None => 0
  end.

(** A computation that may throw: [None] is the thrown [TypeError]. *)
Definition bind {A B : Type} (m : option A) (k : A -> option B) : option B :=
  match m with
  | Some a => k a
  | None => None
  end.

Notation "x <- m ;; k" := (bind m (fun x => k))
  (at level 61, m at next level, right associativity).

(** The body of the first loop of [computeSizing], for one element of
    [sizes].  [minMaxSize[i]] is [undefined] past the end of the array. *)
Definition countSize (size : string) (sizeCount : SizeCount) : option SizeCount :=
  if JS.includes size "/" then
    let minMaxSize := JS.split "/" size in
    k0 <- bind (nth_error minMaxSize 0) Size_of_string ;;
    let sizeCount := incrMin k0 sizeCount in
    k1 <- bind (nth_error minMaxSize 1) Size_of_string ;;
    Some (incrMax k1 sizeCount)
  else
    k <- Size_of_string size ;;
    Some (incrMax k (incrMin k sizeCount)).

(** The first loop of [computeSizing]. *)
Fixpoint countSizes (sizes : list string) (sizeCount : SizeCount) : option SizeCount :=
  match sizes with
  | [] => Some sizeCount
  | size :: rest =>
      sizeCount <- countSize size sizeCount ;;
      countSizes rest sizeCount
  end.

Definition QofNat (n : nat) : Q := inject_Z (Z.of_nat n).

(** The body of the second loop: one entry of [sizeCount] added to
    [(numberOfWeeksMin, numberOfWeeksMax)]. *)
Definition addWeeks (acc : Q * Q) (entry : Size * MinMax) : Q * Q :=
  let ratio := weeksOf (fst entry) in
  (fst acc + QofNat (min (snd entry)) * ratio,
   snd acc + QofNat (max (snd entry)) * ratio)%Q.

(** The second loop: [(numberOfWeeksMin, numberOfWeeksMax)]. *)
Definition numberOfWeeks (sizeCount : SizeCount) : Q * Q :=
  fold_left addWeeks sizeCount (0, 0)%Q.

Record ComputedSizes : Set := { sizeMin : Size; sizeMax : Size }.

(** [computeSizing]. *)
Definition computeSizing (sizes : list string) : option ComputedSizes :=
  sizeCount <- countSizes sizes sizeCount0 ;;
  let weeks := numberOfWeeks sizeCount in
  Some {| sizeMin := getSizingFromNumberOfWeeks (fst weeks);
          sizeMax := getSizingFromNumberOfWeeks (snd weeks) |}.

(** ** The input handler *)

(** The four signals of [App]. *)
Record Signals : Set := {
  size : string;
  error : string;
  minComputedSize : string;
  maxComputedSize : string
}.

(** [createSignal('')], four times. *)
Definition signals0 : Signals :=
  {| size := ""; error := ""; minComputedSize := ""; maxComputedSize := "" |}.

Definition setSize (v : string) (st : Signals) : Signals :=
  {| size := v; error := error st;
     minComputedSize := minComputedSize st; maxComputedSize := maxComputedSize st |}.

Definition setError (v : string) (st : Signals) : Signals :=
  {| size := size st; error := v;
     minComputedSize := minComputedSize st; maxComputedSize := maxComputedSize st |}.

Definition setMinComputedSize (v : string) (st : Signals) : Signals :=
  {| size := size st; error := error st;
     minComputedSize := v; maxComputedSize := maxComputedSize st |}.

Definition setMaxComputedSize (v : string) (st : Signals) : Signals :=
  {| size := size st; error := error st;
     minComputedSize := minComputedSize st; maxComputedSize := v |}.

(** How a call of the handler ends, with the signals it leaves. *)
Inductive Completion : Set :=
| Returns (st : Signals)
| Throws (st : Signals).

(** The array [sizes] of [handleSetSignal]. *)
Definition splitSizes (value : string) : list string :=
  JS.split " " (JS.trim (JS.replaceAll "  " " " (JS.replaceAll "," " " value))).

(** The test applied to every element of [sizes]. *)
Definition validSize (size : string) : bool :=
  JS.Array_includes sizingKeys size ||
  forallb (fun s => JS.Array_includes sizingKeys s) (JS.split "/" size).

(** [handleSetSignal]. *)
Definition handleSetSignal (value : string) (st : Signals) : Completion :=
  let st := setSize value st in
  let sizes := splitSizes value in
  if forallb validSize sizes then
    let st := setError "" st in
    match computeSizing sizes with
    | Some computedSizes =>
        let st := setMinComputedSize (Size_to_string (sizeMin computedSizes)) st in
        Returns (setMaxComputedSize (Size_to_string (sizeMax computedSizes)) st)
    | None => Throws st
    end
  else Returns (setError "Invalid formatting" st).

(** ** The page *)

(** The classes [SizeComponent] switches on and off, each with its
    condition, in the order of the [classList] object. *)
Definition classList (size : string) : list (string * bool) :=
  [ ("bg-blue-700", String.eqb size "XS");
    ("bg-green-950", String.eqb size "S");
    ("bg-yellow-500", String.eqb size "M");
    ("bg-amber-700", String.eqb size "L");
    ("bg-red-800", String.eqb size "XL");
    ("bg-orange-950", String.eqb size "XXL") ].

(** What [SizeComponent] renders: the fixed class, the classes of
    [classList] whose condition holds, and the text. *)
Record Badge : Set := {
  className : string;
  activeClasses : list string;
  children : string
}.

Definition SizeComponent (size : string) : Badge :=
  {| className :=
       "flex size-9 justify-center items-center rounded-full text-center text-white font-bold";
     activeClasses := map fst (filter snd (classList size));
     children := size |}.

(** [SizeWithDuration]: a badge and the text beside it. *)
Definition SizeWithDuration (size duration : string) : Badge * string :=
  (SizeComponent size, duration).

(** The part of the page under the input field: the fallback of the outer
    [Show], the child of the inner [Show], or the fallback of the inner
    [Show]. *)
Inductive Result : Set :=
| ErrorText (message : string)
| OneSize (badge : Badge)
| MinMax_ (minBadge maxBadge : Badge).

(** What [App] renders from its signals: the legend, the value of the
    input field and the result.  [!error()] holds for the empty string
    only. *)
Record Page : Set := {
  legend : list (Badge * string);
  inputValue : string;
  result : Result
}.

Definition App (st : Signals) : Page :=
  {| legend :=
       [ SizeWithDuration "XS" "<= 3 jours";
         SizeWithDuration "S" "<= 1 semaine";
         SizeWithDuration "M" "<= 1 Sprint";
         SizeWithDuration "L" "<= 2 Sprints";
         SizeWithDuration "XL" "<= 1 PI";
         SizeWithDuration "XXL" "> 1 PI" ];
     inputValue := size st;
     result :=
       if String.eqb (error st) "" then
         if String.eqb (minComputedSize st) (maxComputedSize st)
         then OneSize (SizeComponent (minComputedSize st))
         else MinMax_ (SizeComponent (minComputedSize st))
                      (SizeComponent (maxComputedSize st))
       else ErrorText (error st) |}.

(** The signals a call of the handler leaves. *)
Definition signalsOf (c : Completion) : Signals :=
  match c with
  | Returns st => st
  | Throws st => st
  end.

(** The page after the text [value] is typed. *)
Definition onInput (value : string) (st : Signals) : Page :=
  App (signalsOf (handleSetSignal value st)).

(** ** The validation rule as the specification words it *)

(** Number of occurrences of a code unit. *)
Fixpoint countChar (c : ascii) (s : string) : nat :=
  match s with
  | EmptyString => 0
  | String a rest => (if Ascii.eqb a c then 1 else 0) + countChar c rest
  end.

(** A token is valid when it is one of the six labels, or has exactly one
    ['/'] with a label on each side of it. *)
Definition specValidToken (token : string) : bool :=
  JS.Array_includes sizingKeys token ||
  ((countChar "/" token =? 1)%nat &&
   forallb (fun s => JS.Array_includes sizingKeys s) (JS.split "/" token)).

(** ** Vocabulary of the statements *)

(** The six labels, in the order of [rank]. *)
Definition allSizes : list Size := [XS; S_; M; L; XL; XXL].

(** [sizeCount] keeps the six keys it is created with. *)
Definition hasKeys (sizeCount : SizeCount) : Prop :=
  map fst sizeCount = allSizes.

(** The unit a token contributes to the counter of [l] when it names [k]. *)
Definition hit (k l : Size) : nat := if Size_eqb l k then 1 else 0.

(** A validated token as the specification has it: a single label, or a
    pair of labels with one slash. *)
Inductive Token : Set :=
| Single (l : Size)
| Pair (a b : Size).

(** The text of a token. *)
Definition tokenString (t : Token) : string :=
  match t with
  | Single l => Size_to_string l
  | Pair a b => Size_to_string a ++ "/" ++ Size_to_string b
  end.

(** The first member of a token, and its second member; a single label
    is both. *)
Definition minSide (t : Token) : Size :=
  match t with
  | Single l => l
  | Pair a _ => a
  end.

Definition maxSide (t : Token) : Size :=
  match t with
  | Single l => l
  | Pair _ b => b
  end.

(** How many labels of [ls] are the label [k]. *)
Definition hits (ls : list Size) (k : Size) : nat :=
  list_sum (map (fun l => hit l k) ls).

(** Sum of a counter over the six labels. *)
Definition sumOver (count : Size -> nat) : nat :=
  list_sum (map count allSizes).

(** The weights added up with a counter as coefficients. *)
Definition weighted (count : Size -> nat) : Q :=
  fold_right (fun l acc => QofNat (count l) * weeksOf l + acc)%Q 0%Q allSizes.

(** Every code unit of [s] satisfies [p]. *)
Fixpoint forallChars (p : ascii -> bool) (s : string) : bool :=
  match s with
  | EmptyString => true
  | String c rest => p c && forallChars p rest
  end.

(** The space, the only code unit the second replacement and the split
    look for. *)
Definition isSpace (c : ascii) : bool := Ascii.eqb c " ".

(** The separators of the input field: the comma and the space. *)
Definition isSeparator (c : ascii) : bool :=
  Ascii.eqb c "," || Ascii.eqb c " ".

(** A blank code unit: a comma or white space. *)
Definition isBlank (c : ascii) : bool :=
  Ascii.eqb c "," || JS.isWhiteSpace c.

(** A code unit a token may contain. *)
Definition notBlank (c : ascii) : bool := negb (isBlank c).

(** A token: not empty, and without comma or white space. *)
Definition isToken (t : string) : bool :=
  negb (String.eqb t "") && forallChars notBlank t.

(** A separator of one or two code units. *)
Definition isShortSeparator (sep : string) : bool :=
  ((String.length sep =? 1) || (String.length sep =? 2))%nat &&
  forallChars isSeparator sep.

(** The text made of the token [t] followed by the pairs of [rest], each
    a separator and the token after it. *)
Fixpoint joinWith (t : string) (rest : list (string * string)) : string :=
  match rest with
  | [] => t
  | (sep, t') :: rest' => t ++ sep ++ joinWith t' rest'
  end.

(** Every separator of [rest] is short and every token of it is a token. *)
Definition shortlySeparated (rest : list (string * string)) : bool :=
  forallb (fun p => isShortSeparator (fst p) && isToken (snd p)) rest.

(** The tokens of [joinWith t rest], one space between two of them. *)
Definition spaced (t : string) (rest : list (string * string)) : string :=
  joinWith t (map (fun p => (" ", snd p)) rest).

(** The first replacement, on one code unit. *)
Definition commaToSpace (c : ascii) : ascii :=
  if Ascii.eqb c "," then " "%char else c.

(** Empty, or starting with something else than a space. *)
Definition startsClean (s : string) : bool :=
  match s with
  | EmptyString => true
  | String c _ => negb (isSpace c)
  end.

(** The labels the loop of [computeSizing] counts for one element: the
    one on the [min] side and the one on the [max] side. *)
Definition minMaxOf (size : string) : option (Size * Size) :=
  if JS.includes size "/" then
    let minMaxSize := JS.split "/" size in
    k0 <- bind (nth_error minMaxSize 0) Size_of_string ;;
    k1 <- bind (nth_error minMaxSize 1) Size_of_string ;;
    Some (k0, k1)
  else
    k <- Size_of_string size ;;
    Some (k, k).

(** The weights of the labels counted on the [min] side, added up over a
    list of elements; likewise on the [max] side. *)
Definition weeksMinOf (size : string) : Q :=
  match minMaxOf size with
  | Some ab => weeksOf (fst ab)
  | None => 0%Q
  end.

Definition weeksMaxOf (size : string) : Q :=
  match minMaxOf size with
  | Some ab => weeksOf (snd ab)
  | None => 0%Q
  end.

Definition Qsum (l : list Q) : Q := fold_right Qplus 0%Q l.

(** An element written smaller label first. *)
Definition orderedSize (size : string) : bool :=
  match minMaxOf size with
  | Some ab => (rank (fst ab) <=? rank (snd ab))%nat
  | None => false
  end.

(** The labels [l], [ls] written with a slash between two of them. *)
Definition slashJoined (l : Size) (ls : list Size) : string :=
  joinWith (Size_to_string l) (map (fun k => ("/", Size_to_string k)) ls).

(** * Properties *)

(** The mapper as a cascade of comparisons, smallest weight first. *)
Lemma getSizing_cascade (t : Q) :
  getSizingFromNumberOfWeeks t =
    if Qle_bool t (3 # 5) then XS
    else if Qle_bool t 1 then S_
    else if Qle_bool t 3 then M
    else if Qle_bool t 6 then L
    else if Qle_bool t 14 then XL
    else XXL.
Proof.
  unfold getSizingFromNumberOfWeeks; cbn [sizingToWeeks rev app fold_left thresholdStep].
  destruct (Qle_bool t (3 # 5)) eqn:E0; [reflexivity|].
  destruct (Qle_bool t 1) eqn:E1; [reflexivity|].
  destruct (Qle_bool t 3) eqn:E2; [reflexivity|].
  destruct (Qle_bool t 6) eqn:E3; [reflexivity|].
  destruct (Qle_bool t 14) eqn:E4; [reflexivity|].
  destruct (Qle_bool t 16) eqn:E5; reflexivity.
Qed.

Lemma Qle_bool_false (x y : Q) : Qle_bool x y = false -> (y < x)%Q.
Proof.
  intros E. apply Qnot_le_lt. intros Hle.
  apply Qle_bool_iff in Hle. congruence.
Qed.

(** Case analysis on the label returned for [t], each case with the
    comparisons that lead to it. *)
Ltac threshold_cases t :=
  rewrite (getSizing_cascade t);
  repeat match goal with
  | |- context [Qle_bool t ?w] =>
      let E := fresh "E" in
      destruct (Qle_bool t w) eqn:E; cbv iota;
      [apply Qle_bool_iff in E | apply Qle_bool_false in E]
  end.

(** The weights grow strictly along the order of the labels. *)
Lemma weeksOf_increasing (a b : Size) :
  rank a < rank b -> (weeksOf a < weeksOf b)%Q.
Proof.
  destruct a, b; cbn [rank]; intros H; try lia; reflexivity.
Qed.

(** C3. For a non-negative total the mapper returns the smallest label
    whose weight is at least the total; a total above 16, the weight of XXL,
    gives XXL; the total 0 gives XS; 3 gives M and 16.0001 gives XXL. *)
Theorem getSizing_smallest_label (total : Q) (Hnonneg : (0 <= total)%Q) :
  ((total <= 16)%Q ->
     (total <= weeksOf (getSizingFromNumberOfWeeks total))%Q /\
     forall l : Size, (total <= weeksOf l)%Q ->
       rank (getSizingFromNumberOfWeeks total) <= rank l) /\
  ((16 < total)%Q -> getSizingFromNumberOfWeeks total = XXL) /\
  ((total == 0)%Q -> getSizingFromNumberOfWeeks total = XS) /\
  getSizingFromNumberOfWeeks 3 = M /\
  getSizingFromNumberOfWeeks (160001 # 10000) = XXL.
Proof.
  split; [intros H16; split | split; [intros H16 | split; [intros H0 | split; reflexivity]]].
  - threshold_cases total; vm_compute weeksOf; lra.
  - intros l; threshold_cases total; destruct l; vm_compute weeksOf; cbn [rank];
      intros Hl; solve [lia | lra].
  - threshold_cases total; solve [reflexivity | lra].
  - threshold_cases total; solve [reflexivity | lra].
Qed.

Lemma getSizing_smallest_label_witness :
  (0 <= 5)%Q /\
  ((5 <= 16)%Q ->
     (5 <= weeksOf (getSizingFromNumberOfWeeks 5))%Q /\
     forall l : Size, (5 <= weeksOf l)%Q ->
       rank (getSizingFromNumberOfWeeks 5) <= rank l).
Proof.
  assert (H : (0 <= 5)%Q) by lra.
  split; [exact H | exact (proj1 (getSizing_smallest_label 5 H))].
Defined.

(** C9. The mapper is monotone: a larger total never gives a smaller
    label, in the order XS < S < M < L < XL < XXL. *)
Theorem getSizing_monotone (t1 t2 : Q) :
  (t1 <= t2)%Q ->
  rank (getSizingFromNumberOfWeeks t1) <= rank (getSizingFromNumberOfWeeks t2).
Proof.
  intros Hle.
  threshold_cases t1; threshold_cases t2; cbn [rank]; solve [lia | lra].
Qed.

Lemma getSizing_monotone_witness :
  (2 <= 7)%Q /\
  rank (getSizingFromNumberOfWeeks 2) <= rank (getSizingFromNumberOfWeeks 7).
Proof.
  assert (H : (2 <= 7)%Q) by lra.
  split; [exact H | exact (getSizing_monotone 2 7 H)].
Defined.

(** C10. The mapper is defined on every number, negative ones included:
    its value is always one of the six labels, and every total that is at
    most 0.6, so every negative total, gives XS. *)
Theorem getSizing_total (total : Q) :
  In (getSizingFromNumberOfWeeks total) (map fst sizingToWeeks) /\
  ((total <= 3 # 5)%Q -> getSizingFromNumberOfWeeks total = XS) /\
  ((total < 0)%Q -> getSizingFromNumberOfWeeks total = XS).
Proof.
  split; [|split].
  - destruct (getSizingFromNumberOfWeeks total); cbn; tauto.
  - intros H. threshold_cases total; solve [reflexivity | lra].
  - intros H. threshold_cases total; solve [reflexivity | lra].
Qed.

Lemma getSizing_total_witness :
  (-2 <= 3 # 5)%Q /\ (-2 < 0)%Q /\ getSizingFromNumberOfWeeks (-2) = XS.
Proof.
  assert (H1 : (-2 <= 3 # 5)%Q) by lra.
  assert (H2 : (-2 < 0)%Q) by lra.
  split; [exact H1 | split; [exact H2|]].
  exact (proj1 (proj2 (getSizing_total (-2))) H1).
Defined.

(** ** The counters *)

Lemma hasKeys_sizeCount0 : hasKeys sizeCount0.
Proof. reflexivity. Qed.

Lemma hasKeys_inv (sc : SizeCount) :
  hasKeys sc ->
  exists c0 c1 c2 c3 c4 c5,
    sc = [(XS, c0); (S_, c1); (M, c2); (L, c3); (XL, c4); (XXL, c5)].
Proof.
  unfold hasKeys, allSizes; intros H.
  do 6 (destruct sc as [|[? ?] sc]; [discriminate H|]).
  destruct sc; [|discriminate H].
  cbn in H. injection H as -> -> -> -> -> ->.
  repeat eexists.
Qed.

Ltac six_entries sc H :=
  let E := fresh "E" in
  destruct (hasKeys_inv sc H) as (?c & ?c & ?c & ?c & ?c & ?c & E); rewrite E.

Create HintDb keys.

Section Counters.

Variable sc : SizeCount.
Hypothesis Hkeys : hasKeys sc.

Lemma hasKeys_incrMin (k : Size) : hasKeys (incrMin k sc).
Proof.
  unfold hasKeys, incrMin in *. rewrite map_map, <- Hkeys.
  apply map_ext; intros e. destruct (Size_eqb (fst e) k); reflexivity.
Qed.

Lemma hasKeys_incrMax (k : Size) : hasKeys (incrMax k sc).
Proof.
  unfold hasKeys, incrMax in *. rewrite map_map, <- Hkeys.
  apply map_ext; intros e. destruct (Size_eqb (fst e) k); reflexivity.
Qed.

Lemma minCount_incrMin (k l : Size) :
  minCount (incrMin k sc) l = minCount sc l + hit k l.
Proof. six_entries sc Hkeys. destruct k, l; cbn; lia. Qed.

Lemma minCount_incrMax (k l : Size) :
  minCount (incrMax k sc) l = minCount sc l.
Proof. six_entries sc Hkeys. destruct k, l; reflexivity. Qed.

Lemma maxCount_incrMax (k l : Size) :
  maxCount (incrMax k sc) l = maxCount sc l + hit k l.
Proof. six_entries sc Hkeys. destruct k, l; cbn; lia. Qed.

Lemma maxCount_incrMin (k l : Size) :
  maxCount (incrMin k sc) l = maxCount sc l.
Proof. six_entries sc Hkeys. destruct k, l; reflexivity. Qed.

(** One turn of the loop adds one unit on each side. *)
Lemma sumOver_step (a b : Size) :
  sumOver (minCount (incrMax b (incrMin a sc))) = sumOver (minCount sc) + 1 /\
  sumOver (maxCount (incrMax b (incrMin a sc))) = sumOver (maxCount sc) + 1.
Proof. six_entries sc Hkeys. destruct a, b; cbn; lia. Qed.

(** The second loop computes the two weighted sums. *)
Lemma numberOfWeeks_weighted :
  (fst (numberOfWeeks sc) == weighted (minCount sc))%Q /\
  (snd (numberOfWeeks sc) == weighted (maxCount sc))%Q.
Proof.
  six_entries sc Hkeys.
  unfold numberOfWeeks, weighted; cbn; split; ring.
Qed.

End Counters.

#[local] Hint Resolve hasKeys_sizeCount0 hasKeys_incrMin hasKeys_incrMax : keys.

(** What the loop body does on a single label and on a pair. *)
Lemma countSize_label (l : Size) (sc : SizeCount) :
  countSize (Size_to_string l) sc = Some (incrMax l (incrMin l sc)).
Proof. destruct l; reflexivity. Qed.

Lemma countSize_pair (a b : Size) (sc : SizeCount) :
  countSize (Size_to_string a ++ "/" ++ Size_to_string b) sc
  = Some (incrMax b (incrMin a sc)).
Proof. destruct a, b; reflexivity. Qed.

Lemma countSize_token (t : Token) (sc : SizeCount) :
  countSize (tokenString t) sc = Some (incrMax (maxSide t) (incrMin (minSide t) sc)).
Proof. destruct t as [l|a b]; [apply countSize_label | apply countSize_pair]. Qed.

(** The first loop on a whole list of tokens, from any state of the
    counters. *)
Lemma countSizes_tokens (tokens : list Token) :
  forall sc, hasKeys sc ->
  exists sc',
    countSizes (map tokenString tokens) sc = Some sc' /\
    hasKeys sc' /\
    forall k, minCount sc' k = minCount sc k + hits (map minSide tokens) k /\
              maxCount sc' k = maxCount sc k + hits (map maxSide tokens) k.
Proof.
  induction tokens as [|t tokens IH]; intros sc Hkeys.
  - exists sc. split; [reflexivity|]. split; [exact Hkeys|].
    intros k. unfold hits; cbn. lia.
  - assert (Hkeys' : hasKeys (incrMax (maxSide t) (incrMin (minSide t) sc)))
      by auto with keys.
    destruct (IH _ Hkeys') as (sc' & Hrun & Hk & Hcount).
    exists sc'. cbn [map countSizes]. rewrite countSize_token. cbn [bind].
    split; [exact Hrun|]. split; [exact Hk|].
    intros k. destruct (Hcount k) as [Hmin Hmax].
    rewrite Hmin, Hmax.
    rewrite minCount_incrMax, minCount_incrMin by auto with keys.
    rewrite maxCount_incrMax, maxCount_incrMin by auto with keys.
    unfold hits; cbn [map].
    change (list_sum (hit (minSide t) k :: map (fun l => hit l k) (map minSide tokens)))
      with (hit (minSide t) k + list_sum (map (fun l => hit l k) (map minSide tokens))).
    change (list_sum (hit (maxSide t) k :: map (fun l => hit l k) (map maxSide tokens)))
      with (hit (maxSide t) k + list_sum (map (fun l => hit l k) (map maxSide tokens))).
    lia.
Qed.

(** C4. On every list of validated tokens, from any state of the
    counters, the first loop of the aggregator ends with, for each label,
    the [min] counter raised by the number of tokens whose first member is
    that label and the [max] counter raised by the number of tokens whose
    second member is that label, a single label being both members of its
    token: a single label [L] adds one to [min] and to [max] of [L], a
    pair [A/B] adds one to [min] of [A] and one to [max] of [B], whatever
    the weights of [A] and [B], and no other counter moves.  The same is
    stated for one turn of the loop.  The input [S/M] gives the sums 1
    and 3 and the results S and M. *)
Theorem countSize_positional (sc : SizeCount) (Hkeys : hasKeys sc) :
  (forall tokens : list Token, exists sc',
      countSizes (map tokenString tokens) sc = Some sc' /\
      forall k, minCount sc' k = minCount sc k + hits (map minSide tokens) k /\
                maxCount sc' k = maxCount sc k + hits (map maxSide tokens) k) /\
  (forall l : Size, exists sc',
      countSize (Size_to_string l) sc = Some sc' /\
      forall k, minCount sc' k = minCount sc k + hit l k /\
                maxCount sc' k = maxCount sc k + hit l k) /\
  (forall a b : Size, exists sc',
      countSize (Size_to_string a ++ "/" ++ Size_to_string b) sc = Some sc' /\
      forall k, minCount sc' k = minCount sc k + hit a k /\
                maxCount sc' k = maxCount sc k + hit b k) /\
  (exists sc',
      countSizes (splitSizes "S/M") sizeCount0 = Some sc' /\
      (fst (numberOfWeeks sc') == 1)%Q /\ (snd (numberOfWeeks sc') == 3)%Q /\
      computeSizing (splitSizes "S/M") = Some {| sizeMin := S_; sizeMax := M |}).
Proof.
  assert (Hgen : forall a b k,
      minCount (incrMax b (incrMin a sc)) k = minCount sc k + hit a k /\
      maxCount (incrMax b (incrMin a sc)) k = maxCount sc k + hit b k).
  { intros a b k.
    rewrite minCount_incrMax, minCount_incrMin by auto with keys.
    rewrite maxCount_incrMax, maxCount_incrMin by auto with keys.
    split; reflexivity. }
  split; [|split; [|split]].
  - intros tokens.
    destruct (countSizes_tokens tokens sc Hkeys) as (sc' & Hrun & _ & Hcount).
    now exists sc'.
  - intros l. eexists; split; [apply countSize_label | apply Hgen].
  - intros a b. eexists; split; [apply countSize_pair | apply Hgen].
  - eexists; split; [reflexivity | repeat split].
Qed.

Lemma countSize_positional_witness :
  hasKeys (incrMax L (incrMin M sizeCount0)) /\
  exists sc',
    countSizes (map tokenString [Single S_; Pair XL XS; Pair S_ M; Single XXL; Pair XL L])
               (incrMax L (incrMin M sizeCount0)) = Some sc' /\
    forall k,
      minCount sc' k
      = minCount (incrMax L (incrMin M sizeCount0)) k
        + hits (map minSide [Single S_; Pair XL XS; Pair S_ M; Single XXL; Pair XL L]) k /\
      maxCount sc' k
      = maxCount (incrMax L (incrMin M sizeCount0)) k
        + hits (map maxSide [Single S_; Pair XL XS; Pair S_ M; Single XXL; Pair XL L]) k.
Proof.
  split; [reflexivity|].
  exact (proj1 (countSize_positional (incrMax L (incrMin M sizeCount0)) eq_refl)
           [Single S_; Pair XL XS; Pair S_ M; Single XXL; Pair XL L]).
Defined.

(** C6. A single label goes through the whole pipeline unchanged: both
    results are that label. *)
Theorem single_label_roundtrip (l : Size) :
  computeSizing [Size_to_string l] = Some {| sizeMin := l; sizeMax := l |} /\
  forall st : Signals,
    handleSetSignal (Size_to_string l) st =
    Returns {| size := Size_to_string l; error := "";
               minComputedSize := Size_to_string l;
               maxComputedSize := Size_to_string l |}.
Proof.
  split; [destruct l; reflexivity|].
  intros st; destruct l; reflexivity.
Qed.

(** C8. A pair is taken by position, without reordering: [XL/XS] adds 14,
    the weight of XL, to the minimum sum and 0.6, the weight of XS, to the
    maximum sum; the results are XL and XS, so the minimum result outweighs
    the maximum result. *)
Theorem pair_is_positional :
  exists sc,
    countSizes (splitSizes "XL/XS") sizeCount0 = Some sc /\
    (fst (numberOfWeeks sc) == 14)%Q /\
    (snd (numberOfWeeks sc) == 3 # 5)%Q /\
    (fst (numberOfWeeks sc) == weeksOf XL)%Q /\
    (snd (numberOfWeeks sc) == weeksOf XS)%Q /\
    computeSizing (splitSizes "XL/XS") = Some {| sizeMin := XL; sizeMax := XS |} /\
    handleSetSignal "XL/XS" signals0 =
      Returns {| size := "XL/XS"; error := "";
                 minComputedSize := "XL"; maxComputedSize := "XS" |} /\
    (weeksOf XS < weeksOf XL)%Q.
Proof.
  eexists; repeat split.
Qed.

(** ** Validated tokens never make the aggregator throw *)

Lemma Array_includes_keys (s : string) :
  JS.Array_includes sizingKeys s = true -> exists k, s = Size_to_string k.
Proof.
  unfold JS.Array_includes, sizingKeys; cbn [sizingToWeeks map fst existsb Size_to_string].
  intros H.
  repeat (apply orb_prop in H; destruct H as [H|H];
          [apply String.eqb_eq in H; subst s;
           first [ now exists XS | now exists S_ | now exists M
                 | now exists L | now exists XL | now exists XXL ]|]).
  discriminate H.
Qed.

Lemma Size_of_to_string (k : Size) : Size_of_string (Size_to_string k) = Some k.
Proof. destruct k; reflexivity. Qed.

Lemma key_without_slash (k : Size) : JS.includes (Size_to_string k) "/" = false.
Proof. destruct k; reflexivity. Qed.

Lemma prefix_nil (s : string) : prefix "" s = true.
Proof. destruct s; reflexivity. Qed.

Lemma prefix_cons (a b : ascii) (p s : string) :
  prefix (String a p) (String b s) = Ascii.eqb b a && prefix p s.
Proof.
  change (prefix (String a p) (String b s))
    with (if ascii_dec a b then prefix p s else false).
  destruct (ascii_dec a b) as [->|Hne].
  - now rewrite Ascii.eqb_refl.
  - replace (Ascii.eqb b a) with false; [reflexivity|].
    symmetry. apply Ascii.eqb_neq. congruence.
Qed.

Lemma includes_one_cons (c a : ascii) (rest : string) :
  JS.includes (String a rest) (String c "") =
  Ascii.eqb a c || JS.includes rest (String c "").
Proof.
  change (JS.includes (String a rest) (String c ""))
    with (prefix (String c "") (String a rest) || JS.includes rest (String c "")).
  now rewrite prefix_cons, prefix_nil, andb_true_r.
Qed.

Lemma split_not_nil (c : ascii) (s : string) : JS.split c s <> [].
Proof.
  destruct s as [|a rest]; cbn; [discriminate|].
  destruct (Ascii.eqb a c); [discriminate|].
  destruct (JS.split c rest); discriminate.
Qed.

(** Without the separator there is one piece, the string itself. *)
Lemma split_without (c : ascii) (s : string) :
  JS.includes s (String c "") = false -> JS.split c s = [s].
Proof.
  induction s as [|a rest IH]; intros H; [reflexivity|].
  rewrite includes_one_cons in H. apply orb_false_elim in H as [Ha Hrest].
  cbn [JS.split]. rewrite Ha, (IH Hrest). reflexivity.
Qed.

(** With the separator there are at least two pieces. *)
Lemma split_with (c : ascii) (s : string) :
  JS.includes s (String c "") = true ->
  exists p0 p1 pieces, JS.split c s = p0 :: p1 :: pieces.
Proof.
  induction s as [|a rest IH]; intros H; [discriminate H|].
  rewrite includes_one_cons in H. cbn [JS.split].
  destruct (Ascii.eqb a c) eqn:Ha.
  - destruct (JS.split c rest) as [|p1 pieces] eqn:E.
    + now apply split_not_nil in E.
    + now exists "", p1, pieces.
  - cbn in H. destruct (IH H) as (p0 & p1 & pieces & ->).
    now exists (String a p0), p1, pieces.
Qed.

(** Every string that passes [validSize] is counted once on each side. *)
Lemma validSize_countSize (s : string) (sc : SizeCount) :
  validSize s = true ->
  exists a b, countSize s sc = Some (incrMax b (incrMin a sc)).
Proof.
  unfold validSize, countSize; intros Hvalid.
  destruct (JS.includes s "/") eqn:Hslash.
  - destruct (split_with "/" s Hslash) as (p0 & p1 & pieces & Hsplit).
    apply orb_prop in Hvalid as [Hkey|Hparts].
    + apply Array_includes_keys in Hkey as [k ->].
      rewrite key_without_slash in Hslash. discriminate Hslash.
    + rewrite Hsplit in Hparts |- *. cbn [forallb] in Hparts.
      apply andb_prop in Hparts as [H0 Hparts].
      apply andb_prop in Hparts as [H1 _].
      apply Array_includes_keys in H0 as [a ->].
      apply Array_includes_keys in H1 as [b ->].
      exists a, b. cbn [nth_error bind]. now rewrite !Size_of_to_string.
  - rewrite (split_without "/" s Hslash) in Hvalid. cbn [forallb] in Hvalid.
    rewrite andb_true_r, orb_diag in Hvalid.
    apply Array_includes_keys in Hvalid as [k ->].
    exists k, k. now rewrite Size_of_to_string.
Qed.

Lemma countSizes_valid (sizes : list string) :
  forallb validSize sizes = true ->
  forall sc0, hasKeys sc0 ->
  exists sc,
    countSizes sizes sc0 = Some sc /\ hasKeys sc /\
    sumOver (minCount sc) = sumOver (minCount sc0) + List.length sizes /\
    sumOver (maxCount sc) = sumOver (maxCount sc0) + List.length sizes.
Proof.
  induction sizes as [|s rest IH]; intros Hvalid sc0 Hkeys.
  - exists sc0. cbn. repeat split; auto.
  - cbn [forallb] in Hvalid. apply andb_prop in Hvalid as [Hs Hrest].
    destruct (validSize_countSize s sc0 Hs) as (a & b & Hstep).
    assert (Hkeys' : hasKeys (incrMax b (incrMin a sc0))) by auto with keys.
    destruct (IH Hrest _ Hkeys') as (sc & Hrun & Hk & Hmin & Hmax).
    destruct (sumOver_step sc0 Hkeys a b) as [Hmin1 Hmax1].
    exists sc. cbn [countSizes bind List.length]. rewrite Hstep. cbn [bind].
    repeat split; auto; lia.
Qed.

Lemma countSizes_never_throws (sizes : list string) :
  forallb validSize sizes = true ->
  exists sc, countSizes sizes sizeCount0 = Some sc.
Proof.
  intros Hvalid.
  destruct (countSizes_valid sizes Hvalid sizeCount0 hasKeys_sizeCount0)
    as (sc & Hrun & _).
  now exists sc.
Qed.

(** C7. On a list of [n] validated tokens the first loop ends normally,
    each token having added one to a [min] counter and one to a [max]
    counter: the [min] counters sum to [n], the [max] counters sum to [n],
    and each of the two sums of weeks is the sum of the weights with those
    counters as coefficients.  Validated means accepted by the test of
    [handleSetSignal]. *)
Theorem one_unit_per_token (sizes : list string)
    (Hvalid : forallb validSize sizes = true) :
  exists sc,
    countSizes sizes sizeCount0 = Some sc /\
    sumOver (minCount sc) = List.length sizes /\
    sumOver (maxCount sc) = List.length sizes /\
    (fst (numberOfWeeks sc) == weighted (minCount sc))%Q /\
    (snd (numberOfWeeks sc) == weighted (maxCount sc))%Q.
Proof.
  destruct (countSizes_valid sizes Hvalid sizeCount0 hasKeys_sizeCount0)
    as (sc & Hrun & Hkeys & Hmin & Hmax).
  destruct (numberOfWeeks_weighted sc Hkeys) as [Hwmin Hwmax].
  exists sc. repeat split; assumption.
Qed.

Lemma one_unit_per_token_witness :
  forallb validSize ["XS"; "S/M"; "L/XL"] = true /\
  exists sc,
    countSizes ["XS"; "S/M"; "L/XL"] sizeCount0 = Some sc /\
    sumOver (minCount sc) = 3 /\
    sumOver (maxCount sc) = 3 /\
    (fst (numberOfWeeks sc) == weighted (minCount sc))%Q /\
    (snd (numberOfWeeks sc) == weighted (maxCount sc))%Q.
Proof.
  split; [reflexivity|].
  exact (one_unit_per_token ["XS"; "S/M"; "L/XL"] eq_refl).
Defined.

(** ** The tokenizer *)

Lemma replaceAllFrom_here (pat rep : string) (c : ascii) (rest : string) :
  JS.replaceAllFrom pat rep 0 (String c rest) =
  if prefix pat (String c rest)
  then rep ++ JS.replaceAllFrom pat rep (String.length pat - 1) rest
  else String c (JS.replaceAllFrom pat rep 0 rest).
Proof. reflexivity. Qed.

Lemma replaceAllFrom_skip (pat rep : string) (k : nat) (c : ascii) (rest : string) :
  JS.replaceAllFrom pat rep (S k) (String c rest) = JS.replaceAllFrom pat rep k rest.
Proof. reflexivity. Qed.

Lemma replaceAll_comma_cons (c : ascii) (rest : string) :
  JS.replaceAll "," " " (String c rest)
  = String (commaToSpace c) (JS.replaceAll "," " " rest).
Proof.
  unfold JS.replaceAll, commaToSpace. rewrite replaceAllFrom_here, prefix_cons, prefix_nil.
  rewrite andb_true_r. destruct (Ascii.eqb c ","); reflexivity.
Qed.

Lemma replaceAll_comma_app (a b : string) :
  JS.replaceAll "," " " (a ++ b)
  = JS.replaceAll "," " " a ++ JS.replaceAll "," " " b.
Proof.
  induction a as [|c a IH]; [reflexivity|].
  cbn [append]. rewrite !replaceAll_comma_cons, IH. reflexivity.
Qed.

Lemma collapse_pair (rest : string) :
  JS.replaceAll "  " " " (String " " (String " " rest))
  = String " " (JS.replaceAll "  " " " rest).
Proof.
  unfold JS.replaceAll.
  rewrite replaceAllFrom_here, !prefix_cons, prefix_nil. reflexivity.
Qed.

Lemma collapse_other (c : ascii) (rest : string) :
  Ascii.eqb c " " = false ->
  JS.replaceAll "  " " " (String c rest)
  = String c (JS.replaceAll "  " " " rest).
Proof.
  intros Hc. unfold JS.replaceAll.
  rewrite replaceAllFrom_here, prefix_cons, Hc. reflexivity.
Qed.

Lemma collapse_single (c : ascii) (rest : string) :
  Ascii.eqb c " " = false ->
  JS.replaceAll "  " " " (String " " (String c rest))
  = String " " (String c (JS.replaceAll "  " " " rest)).
Proof.
  intros Hc.
  rewrite <- (collapse_other c rest Hc). unfold JS.replaceAll.
  rewrite replaceAllFrom_here, !prefix_cons, Hc, andb_false_r. reflexivity.
Qed.

(** *** Blank input *)

Lemma replaceAll_comma_blank (s : string) :
  forallChars isBlank s = true ->
  forallChars JS.isWhiteSpace (JS.replaceAll "," " " s) = true.
Proof.
  induction s as [|c rest IH]; intros H; [reflexivity|].
  cbn [forallChars] in H. apply andb_prop in H as [Hc Hrest].
  rewrite replaceAll_comma_cons. cbn [forallChars]. rewrite (IH Hrest), andb_true_r.
  unfold commaToSpace, isBlank in *.
  destruct (Ascii.eqb c ","); [reflexivity | exact Hc].
Qed.

Lemma replaceAllFrom_whiteSpace (s : string) :
  forallChars JS.isWhiteSpace s = true ->
  forall skip, forallChars JS.isWhiteSpace (JS.replaceAllFrom "  " " " skip s) = true.
Proof.
  induction s as [|c rest IH]; intros H skip; [reflexivity|].
  cbn [forallChars] in H. apply andb_prop in H as [Hc Hrest].
  destruct skip as [|k]; [|rewrite replaceAllFrom_skip; auto].
  rewrite replaceAllFrom_here.
  destruct (prefix "  " (String c rest)).
  - cbn [append forallChars]. now rewrite IH.
  - cbn [forallChars]. now rewrite Hc, IH.
Qed.

Lemma trimStart_whiteSpace (s : string) :
  forallChars JS.isWhiteSpace s = true -> JS.trimStart s = "".
Proof.
  induction s as [|c rest IH]; intros H; [reflexivity|].
  cbn [forallChars] in H. apply andb_prop in H as [Hc Hrest].
  cbn [JS.trimStart]. rewrite Hc. auto.
Qed.

(** A blank text gives the single empty candidate. *)
Lemma splitSizes_blank (value : string) :
  forallChars isBlank value = true -> splitSizes value = [""].
Proof.
  intros H. unfold splitSizes, JS.trim, JS.replaceAll.
  rewrite trimStart_whiteSpace; [reflexivity|].
  apply replaceAllFrom_whiteSpace, replaceAll_comma_blank, H.
Qed.

(** C5. A text that is empty, or made only of commas and white space, is
    rejected: the error signal becomes [Invalid formatting] and the two
    computed sizes keep the values they had. *)
Theorem blank_input_rejected (value : string) (st : Signals)
    (Hblank : forallChars isBlank value = true) :
  handleSetSignal value st =
  Returns {| size := value; error := "Invalid formatting";
             minComputedSize := minComputedSize st;
             maxComputedSize := maxComputedSize st |}.
Proof.
  unfold handleSetSignal. rewrite (splitSizes_blank value Hblank). reflexivity.
Qed.

Lemma blank_input_rejected_witness :
  forallChars isBlank " , ,  " = true /\
  handleSetSignal " , ,  " signals0 =
  Returns {| size := " , ,  "; error := "Invalid formatting";
             minComputedSize := ""; maxComputedSize := "" |}.
Proof.
  split; [reflexivity|].
  exact (blank_input_rejected " , ,  " signals0 eq_refl).
Defined.

(** *** Separators of one or two code units *)

Lemma append_assoc (a b c : string) : (a ++ b) ++ c = a ++ (b ++ c).
Proof. induction a as [|x a IH]; cbn; [reflexivity | now rewrite IH]. Qed.

Lemma append_nil_r (a : string) : a ++ "" = a.
Proof. induction a as [|x a IH]; cbn; [reflexivity | now rewrite IH]. Qed.

Lemma notBlank_inv (c : ascii) :
  notBlank c = true ->
  Ascii.eqb c "," = false /\ Ascii.eqb c " " = false /\ JS.isWhiteSpace c = false.
Proof.
  unfold notBlank, isBlank; intros H.
  apply negb_true_iff, orb_false_elim in H as [Hcomma Hws].
  repeat split; auto.
  destruct (Ascii.eqb_spec c " ") as [->|_]; [|reflexivity].
  vm_compute in Hws. discriminate Hws.
Qed.

Lemma isSpace_eq (c : ascii) : isSpace c = true -> c = " "%char.
Proof. apply Ascii.eqb_eq. Qed.

Lemma commaToSpace_separator (c : ascii) :
  isSeparator c = true -> commaToSpace c = " "%char.
Proof.
  unfold isSeparator, commaToSpace; intros H.
  destruct (Ascii.eqb c ","); [reflexivity|].
  now apply Ascii.eqb_eq in H.
Qed.

Lemma replaceAll_comma_token (t : string) :
  forallChars notBlank t = true -> JS.replaceAll "," " " t = t.
Proof.
  induction t as [|c t IH]; intros H; [reflexivity|].
  cbn [forallChars] in H. apply andb_prop in H as [Hc Ht].
  apply notBlank_inv in Hc as (Hcomma & _ & _).
  rewrite replaceAll_comma_cons, (IH Ht). unfold commaToSpace. now rewrite Hcomma.
Qed.

Lemma replaceAll_comma_separators (s : string) :
  forallChars isSeparator s = true ->
  forallChars isSpace (JS.replaceAll "," " " s) = true.
Proof.
  induction s as [|c s IH]; intros H; [reflexivity|].
  cbn [forallChars] in H. apply andb_prop in H as [Hc Hs].
  rewrite replaceAll_comma_cons, (commaToSpace_separator c Hc).
  cbn [forallChars]. now rewrite (IH Hs).
Qed.

Lemma replaceAll_comma_short (sep : string) :
  isShortSeparator sep = true ->
  JS.replaceAll "," " " sep = " " \/ JS.replaceAll "," " " sep = "  ".
Proof.
  unfold isShortSeparator; intros H. apply andb_prop in H as [Hlen Hsep].
  destruct sep as [|a [|b [|c sep]]]; try discriminate Hlen.
  - cbn [forallChars] in Hsep. apply andb_prop in Hsep as [Ha _].
    left. rewrite replaceAll_comma_cons, (commaToSpace_separator a Ha). reflexivity.
  - cbn [forallChars] in Hsep. apply andb_prop in Hsep as [Ha Hsep].
    apply andb_prop in Hsep as [Hb _].
    right. rewrite !replaceAll_comma_cons.
    rewrite (commaToSpace_separator a Ha), (commaToSpace_separator b Hb). reflexivity.
Qed.

Lemma collapse_token_app (t rest : string) :
  forallChars notBlank t = true ->
  JS.replaceAll "  " " " (t ++ rest) = t ++ JS.replaceAll "  " " " rest.
Proof.
  induction t as [|c t IH]; intros H; [reflexivity|].
  cbn [forallChars] in H. apply andb_prop in H as [Hc Ht].
  apply notBlank_inv in Hc as (_ & Hspace & _).
  cbn [append]. now rewrite (collapse_other c _ Hspace), (IH Ht).
Qed.

(** One or two spaces before a token collapse to one. *)
Lemma collapse_short (sp : string) (c : ascii) (rest : string) :
  sp = " " \/ sp = "  " ->
  Ascii.eqb c " " = false ->
  JS.replaceAll "  " " " (sp ++ String c rest)
  = String " " (JS.replaceAll "  " " " (String c rest)).
Proof.
  intros [->| ->] Hc; cbn [append].
  - now rewrite (collapse_single c rest Hc), (collapse_other c rest Hc).
  - apply collapse_pair.
Qed.

(** A run of spaces of any length stays a run of spaces. *)
Lemma collapse_spaces (ws rest : string) :
  forallChars isSpace ws = true ->
  startsClean rest = true ->
  forall skip, skip = 0 \/ (skip = 1 /\ ws <> "") ->
  exists ws',
    forallChars isSpace ws' = true /\
    JS.replaceAllFrom "  " " " skip (ws ++ rest) = ws' ++ JS.replaceAll "  " " " rest.
Proof.
  intros Hws Hrest. induction ws as [|a r IH]; intros skip Hskip.
  - destruct Hskip as [->|[_ Hne]]; [|congruence]. now exists "".
  - cbn [forallChars] in Hws. apply andb_prop in Hws as [Ha Hr].
    apply isSpace_eq in Ha; subst a. cbn [append].
    destruct Hskip as [->|[-> _]].
    + rewrite replaceAllFrom_here, prefix_cons. cbn [Ascii.eqb Bool.eqb andb].
      destruct r as [|b r'].
      * cbn [append].
        assert (Hno : prefix " " rest = false).
        { destruct rest as [|c rest']; [reflexivity|].
          rewrite prefix_cons. cbn [startsClean] in Hrest.
          apply negb_true_iff in Hrest. unfold isSpace in Hrest. now rewrite Hrest. }
        rewrite Hno. now exists " ".
      * assert (Hb := Hr). cbn [forallChars] in Hb. apply andb_prop in Hb as [Hb _].
        apply isSpace_eq in Hb; subst b. cbn [append].
        rewrite prefix_cons, prefix_nil. cbn [Ascii.eqb Bool.eqb andb].
        destruct (IH Hr 1) as (ws' & Hws' & Heq); [right; split; [reflexivity|discriminate]|].
        exists (String " " ws'). split; [exact Hws'|].
        change (String.length "  " - 1) with 1. cbn [append] in Heq |- *.
        now rewrite Heq.
    + rewrite replaceAllFrom_skip. apply (IH Hr 0). now left.
Qed.

Lemma isSpace_whiteSpace (c : ascii) : isSpace c = true -> JS.isWhiteSpace c = true.
Proof. intros H. apply isSpace_eq in H. now subst c. Qed.

Lemma isToken_inv (t : string) :
  isToken t = true ->
  forallChars notBlank t = true /\
  exists c t', t = String c t' /\ notBlank c = true.
Proof.
  unfold isToken; intros H. apply andb_prop in H as [Hne Hchars].
  split; [exact Hchars|].
  destruct t as [|c t']; [discriminate Hne|].
  cbn [forallChars] in Hchars. apply andb_prop in Hchars as [Hc _].
  now exists c, t'.
Qed.

Lemma joinWith_head (t : string) (rest : list (string * string)) (trail : string) :
  isToken t = true ->
  exists c tail, joinWith t rest ++ trail = String c tail /\ notBlank c = true.
Proof.
  intros Ht. apply isToken_inv in Ht as (_ & c & t' & -> & Hc).
  destruct rest as [|[sep t''] rest]; cbn [joinWith append]; eauto.
Qed.

Lemma trimStart_spaces (ws rest : string) :
  forallChars isSpace ws = true -> JS.trimStart (ws ++ rest) = JS.trimStart rest.
Proof.
  induction ws as [|c ws IH]; intros H; [reflexivity|].
  cbn [forallChars] in H. apply andb_prop in H as [Hc Hws].
  cbn [append JS.trimStart]. now rewrite (isSpace_whiteSpace c Hc), (IH Hws).
Qed.

Lemma trimEnd_spaces (ws : string) :
  forallChars isSpace ws = true -> JS.trimEnd ws = "".
Proof.
  induction ws as [|c ws IH]; intros H; [reflexivity|].
  cbn [forallChars] in H. apply andb_prop in H as [Hc Hws].
  cbn [JS.trimEnd]. now rewrite (IH Hws), (isSpace_whiteSpace c Hc).
Qed.

Lemma trimEnd_app_spaces (a ws : string) :
  forallChars isSpace ws = true -> JS.trimEnd (a ++ ws) = JS.trimEnd a.
Proof.
  intros Hws. induction a as [|c a IH]; cbn [append].
  - now apply trimEnd_spaces.
  - cbn [JS.trimEnd]. now rewrite IH.
Qed.

Lemma trimEnd_token (t : string) :
  forallChars notBlank t = true -> JS.trimEnd t = t.
Proof.
  induction t as [|c t IH]; intros H; [reflexivity|].
  cbn [forallChars] in H. apply andb_prop in H as [Hc Ht].
  apply notBlank_inv in Hc as (_ & _ & Hws).
  cbn [JS.trimEnd]. rewrite (IH Ht), Hws. now destruct t.
Qed.

Lemma trimEnd_app_fixed (a b : string) :
  JS.trimEnd b = b -> b <> "" -> JS.trimEnd (a ++ b) = a ++ b.
Proof.
  intros Hb Hne. induction a as [|c a IH]; cbn [append]; [exact Hb|].
  cbn [JS.trimEnd]. rewrite IH.
  destruct (a ++ b) eqn:E; [|reflexivity].
  destruct a; cbn in E; [contradiction | discriminate E].
Qed.

Lemma trimEnd_spaced (rest : list (string * string)) :
  forall t, isToken t = true -> shortlySeparated rest = true ->
  JS.trimEnd (spaced t rest) = spaced t rest /\ spaced t rest <> "".
Proof.
  unfold spaced.
  induction rest as [|[sep t'] rest IH]; intros t Ht Hrest; cbn [map joinWith snd].
  - apply isToken_inv in Ht as (Hchars & c & t'' & -> & _).
    split; [now apply trimEnd_token | discriminate].
  - cbn [shortlySeparated forallb fst snd] in Hrest.
    apply andb_prop in Hrest as [Hhead Hrest]. apply andb_prop in Hhead as [_ Ht'].
    destruct (IH t' Ht' Hrest) as [Hfix Hne].
    rewrite <- append_assoc. split.
    + now apply trimEnd_app_fixed.
    + intros E. destruct (t ++ " "); cbn in E; [contradiction | discriminate E].
Qed.

Lemma split_token (t : string) :
  forallChars notBlank t = true -> JS.split " " t = [t].
Proof.
  induction t as [|c t IH]; intros H; [reflexivity|].
  cbn [forallChars] in H. apply andb_prop in H as [Hc Ht].
  apply notBlank_inv in Hc as (_ & Hspace & _).
  cbn [JS.split]. now rewrite Hspace, (IH Ht).
Qed.

Lemma split_token_app (t rest : string) :
  forallChars notBlank t = true ->
  JS.split " " (t ++ String " " rest) = t :: JS.split " " rest.
Proof.
  induction t as [|c t IH]; intros H; [reflexivity|].
  cbn [forallChars] in H. apply andb_prop in H as [Hc Ht].
  apply notBlank_inv in Hc as (_ & Hspace & _).
  cbn [append JS.split]. now rewrite Hspace, (IH Ht).
Qed.

Lemma split_spaced (rest : list (string * string)) :
  forall t, isToken t = true -> shortlySeparated rest = true ->
  JS.split " " (spaced t rest) = t :: map snd rest.
Proof.
  unfold spaced.
  induction rest as [|[sep t'] rest IH]; intros t Ht Hrest; cbn [map joinWith snd].
  - apply split_token. now apply isToken_inv in Ht.
  - cbn [shortlySeparated forallb fst snd] in Hrest.
    apply andb_prop in Hrest as [Hhead Hrest]. apply andb_prop in Hhead as [_ Ht'].
    apply isToken_inv in Ht as [Hchars _].
    cbn [append]. now rewrite (split_token_app t _ Hchars), (IH t' Ht' Hrest).
Qed.

(** The two replacements on a text of tokens with short separators. *)
Lemma normalize_join (rest : list (string * string)) :
  forall t trail,
  isToken t = true -> shortlySeparated rest = true ->
  forallChars isSeparator trail = true ->
  exists ws,
    forallChars isSpace ws = true /\
    JS.replaceAll "  " " " (JS.replaceAll "," " " (joinWith t rest ++ trail))
    = spaced t rest ++ ws.
Proof.
  induction rest as [|[sep t'] rest IH]; intros t trail Ht Hrest Htrail.
  - cbn [joinWith]. unfold spaced; cbn [map joinWith].
    apply isToken_inv in Ht as [Hchars _].
    rewrite replaceAll_comma_app, (replaceAll_comma_token t Hchars).
    rewrite (collapse_token_app t _ Hchars).
    destruct (collapse_spaces (JS.replaceAll "," " " trail) ""
                (replaceAll_comma_separators trail Htrail) eq_refl 0)
      as (ws & Hws & Heq); [now left|].
    rewrite append_nil_r in Heq. exists ws. split; [exact Hws|].
    unfold JS.replaceAll at 1. rewrite Heq. cbn. now rewrite append_nil_r.
  - cbn [shortlySeparated forallb fst snd] in Hrest.
    apply andb_prop in Hrest as [Hhead Hrest]. apply andb_prop in Hhead as [Hsep Ht'].
    destruct (IH t' trail Ht' Hrest Htrail) as (ws & Hws & Heq).
    exists ws. split; [exact Hws|].
    destruct (joinWith_head t' rest trail Ht') as (c & tail & Hhd & Hc).
    apply notBlank_inv in Hc as (Hcomma & Hspace & _).
    apply isToken_inv in Ht as [Hchars _].
    unfold spaced; cbn [joinWith map snd]. fold (spaced t' rest).
    rewrite !append_assoc.
    rewrite replaceAll_comma_app, (replaceAll_comma_token t Hchars).
    rewrite (collapse_token_app t _ Hchars). f_equal.
    rewrite replaceAll_comma_app. rewrite Hhd in Heq |- *.
    rewrite replaceAll_comma_cons in Heq |- *.
    unfold commaToSpace in Heq |- *. rewrite Hcomma in Heq |- *.
    rewrite (collapse_short _ c _ (replaceAll_comma_short sep Hsep) Hspace).
    cbn [append]. now rewrite Heq.
Qed.

Lemma tokens_not_empty (rest : list (string * string)) (t : string) :
  isToken t = true -> shortlySeparated rest = true ->
  forallb (fun s => negb (String.eqb s "")) (t :: map snd rest) = true.
Proof.
  intros Ht Hrest. cbn [forallb]. apply andb_true_intro; split.
  - unfold isToken in Ht. now apply andb_prop in Ht as [Hne _].
  - clear t Ht. induction rest as [|[sep t'] rest IH]; [reflexivity|].
    cbn [shortlySeparated forallb fst snd map] in Hrest |- *.
    apply andb_prop in Hrest as [Hhead Hrest]. apply andb_prop in Hhead as [_ Ht'].
    unfold isToken in Ht'. apply andb_prop in Ht' as [Hne _].
    rewrite Hne. now apply IH.
Qed.

(** C2, as amended. When two tokens are never more than two separators
    apart (commas and spaces in any mixture), the separators between them
    collapse to one space before trimming and splitting: the candidates are
    exactly the tokens, in order, and none is empty.  Separators before the
    first token and after the last, however many, are trimmed away. *)
Theorem short_separators_collapse (lead trail t : string)
    (rest : list (string * string))
    (Hlead : forallChars isSeparator lead = true)
    (Htrail : forallChars isSeparator trail = true)
    (Ht : isToken t = true)
    (Hrest : shortlySeparated rest = true) :
  JS.trim (JS.replaceAll "  " " "
            (JS.replaceAll "," " " (lead ++ joinWith t rest ++ trail)))
    = spaced t rest /\
  splitSizes (lead ++ joinWith t rest ++ trail) = t :: map snd rest /\
  forallb (fun s => negb (String.eqb s ""))
          (splitSizes (lead ++ joinWith t rest ++ trail)) = true.
Proof.
  assert (Htrim : JS.trim (JS.replaceAll "  " " "
            (JS.replaceAll "," " " (lead ++ joinWith t rest ++ trail)))
          = spaced t rest).
  { rewrite replaceAll_comma_app.
    destruct (normalize_join rest t trail Ht Hrest Htrail) as (ws2 & Hws2 & Heq).
    assert (Hclean : startsClean (JS.replaceAll "," " " (joinWith t rest ++ trail)) = true).
    { destruct (joinWith_head t rest trail Ht) as (c & tail & -> & Hc).
      apply notBlank_inv in Hc as (Hcomma & Hspace & _).
      rewrite replaceAll_comma_cons. unfold commaToSpace. rewrite Hcomma.
      cbn [startsClean]. unfold isSpace. now rewrite Hspace. }
    destruct (collapse_spaces _ _ (replaceAll_comma_separators lead Hlead) Hclean 0)
      as (ws1 & Hws1 & Heq1); [now left|].
    unfold JS.replaceAll at 1. rewrite Heq1, Heq.
    unfold JS.trim. rewrite (trimStart_spaces ws1 _ Hws1).
    destruct (joinWith_head t (map (fun p => (" ", snd p)) rest) ws2 Ht)
      as (c & tail & Hhd & Hc).
    apply notBlank_inv in Hc as (_ & _ & Hws).
    fold (spaced t rest) in Hhd.
    assert (Hstart : JS.trimStart (spaced t rest ++ ws2) = spaced t rest ++ ws2).
    { rewrite Hhd. cbn [JS.trimStart]. now rewrite Hws. }
    rewrite Hstart, (trimEnd_app_spaces _ ws2 Hws2).
    now apply trimEnd_spaced. }
  assert (Hsplit : splitSizes (lead ++ joinWith t rest ++ trail) = t :: map snd rest).
  { unfold splitSizes. rewrite Htrim. now apply split_spaced. }
  split; [exact Htrim|]. split; [exact Hsplit|].
  rewrite Hsplit. now apply tokens_not_empty.
Qed.

Lemma short_separators_collapse_witness :
  forallChars isSeparator " " = true /\
  forallChars isSeparator ", " = true /\
  isToken "XS" = true /\
  shortlySeparated [(", ", "S/M"); (" ", "L"); (",", "XL")] = true /\
  splitSizes " XS, S/M L,XL, " = ["XS"; "S/M"; "L"; "XL"].
Proof.
  split; [reflexivity|]. split; [reflexivity|].
  split; [reflexivity|]. split; [reflexivity|].
  exact (proj1 (proj2 (short_separators_collapse
           " " ", " "XS" [(", ", "S/M"); (" ", "L"); (",", "XL")]
           eq_refl eq_refl eq_refl eq_refl))).
Defined.

(** C2, as stated, fails on a run of three separators: the second
    replacement makes one pass, so three spaces become two and an empty
    candidate appears. *)
Lemma three_separators_leave_empty_token :
  JS.replaceAll "  " " " (JS.replaceAll "," " " "XS , S") = "XS  S" /\
  splitSizes "XS , S" = ["XS"; ""; "S"] /\
  In "" (splitSizes "XS , S").
Proof.
  split; [reflexivity|]. split; [reflexivity|]. right; left; reflexivity.
Qed.

(** ** Validation *)

(** The test of the handler only asks that every piece between slashes is
    a label. *)
Lemma validSize_pieces (s : string) :
  validSize s = forallb (fun p => JS.Array_includes sizingKeys p) (JS.split "/" s).
Proof.
  unfold validSize.
  destruct (JS.Array_includes sizingKeys s) eqn:Hkey; [|reflexivity].
  apply Array_includes_keys in Hkey as [k ->].
  rewrite (split_without "/" _ (key_without_slash k)). now destruct k.
Qed.

(** Every token the specification calls valid passes the test. *)
Lemma specValidToken_validSize (token : string) :
  specValidToken token = true -> validSize token = true.
Proof.
  unfold specValidToken, validSize; intros H.
  apply orb_prop in H as [H|H]; [now rewrite H|].
  apply andb_prop in H as [_ H]. rewrite H. apply orb_true_r.
Qed.

(** The handler never throws: what passes the test is counted. *)
Lemma handleSetSignal_returns (value : string) (st : Signals) :
  exists st', handleSetSignal value st = Returns st'.
Proof.
  unfold handleSetSignal.
  destruct (forallb validSize (splitSizes value)) eqn:Hvalid; [|eauto].
  destruct (countSizes_never_throws (splitSizes value) Hvalid) as (sc & Hrun).
  unfold computeSizing. rewrite Hrun. cbn [bind]. eauto.
Qed.

(** Validation is all or nothing: one candidate that fails the test is
    enough for the error, and the computed sizes are left as they were. *)
Lemma handleSetSignal_rejects (value : string) (st : Signals) :
  existsb (fun s => negb (validSize s)) (splitSizes value) = true ->
  handleSetSignal value st =
  Returns {| size := value; error := "Invalid formatting";
             minComputedSize := minComputedSize st;
             maxComputedSize := maxComputedSize st |}.
Proof.
  intros H. unfold handleSetSignal.
  destruct (forallb validSize (splitSizes value)) eqn:Hall; [|reflexivity].
  apply existsb_exists in H as (s & Hin & Hs).
  rewrite forallb_forall in Hall. rewrite (Hall s Hin) in Hs. discriminate Hs.
Qed.

(** C1, at the input that breaks it. The token [XS/S/M] has two slashes,
    so the rule of the specification rejects it; the test of the handler
    accepts it, the error is cleared, and the aggregator counts it as
    [XS/S], the third label being dropped. *)
Theorem three_part_token_accepted :
  specValidToken "XS/S/M" = false /\
  validSize "XS/S/M" = true /\
  splitSizes "XS/S/M" = ["XS/S/M"] /\
  countSizes ["XS/S/M"] sizeCount0 = countSizes ["XS/S"] sizeCount0 /\
  handleSetSignal "XS/S/M" signals0 =
    Returns {| size := "XS/S/M"; error := "";
               minComputedSize := "XS"; maxComputedSize := "S" |}.
Proof. repeat split. Qed.

(** * Further properties of the aggregator *)

(** The mapper does not tell equal rationals apart, and keeps the order. *)
Lemma getSizing_Qeq (t1 t2 : Q) :
  (t1 == t2)%Q -> getSizingFromNumberOfWeeks t1 = getSizingFromNumberOfWeeks t2.
Proof.
  intros Heq. threshold_cases t1; threshold_cases t2; solve [reflexivity | lra].
Qed.

Lemma getSizing_rank_le (t1 t2 : Q) :
  (t1 <= t2)%Q ->
  rank (getSizingFromNumberOfWeeks t1) <= rank (getSizingFromNumberOfWeeks t2).
Proof.
  intros Hle. threshold_cases t1; threshold_cases t2; cbn [rank]; solve [lia | lra].
Qed.

Lemma getSizing_weeksOf (l : Size) : getSizingFromNumberOfWeeks (weeksOf l) = l.
Proof. destruct l; reflexivity. Qed.

Lemma weeksOf_rank_le (a b : Size) :
  rank a <= rank b -> (weeksOf a <= weeksOf b)%Q.
Proof.
  destruct a, b; cbn [rank]; intros H; try lia; vm_compute; discriminate.
Qed.

Lemma weeksOf_bounds (l : Size) : (3 # 5 <= weeksOf l)%Q /\ (weeksOf l <= 16)%Q.
Proof. destruct l; split; vm_compute; discriminate. Qed.

(** The loop body, through the labels it counts. *)
Lemma countSize_minMaxOf (s : string) (sc : SizeCount) :
  countSize s sc =
  match minMaxOf s with
  | Some ab => Some (incrMax (snd ab) (incrMin (fst ab) sc))
  | None => None
  end.
Proof.
  unfold countSize, minMaxOf. destruct (JS.includes s "/").
  - destruct (bind (nth_error (JS.split "/" s) 0) Size_of_string); cbn [bind]; [|reflexivity].
    destruct (bind (nth_error (JS.split "/" s) 1) Size_of_string); reflexivity.
  - destruct (Size_of_string s); reflexivity.
Qed.

Lemma validSize_minMaxOf (s : string) :
  validSize s = true -> exists ab, minMaxOf s = Some ab.
Proof.
  intros Hvalid. destruct (validSize_countSize s sizeCount0 Hvalid) as (a & b & Hstep).
  rewrite countSize_minMaxOf in Hstep.
  destruct (minMaxOf s) as [ab|]; [now exists ab | discriminate Hstep].
Qed.

Lemma QofNat_succ (n : nat) : (QofNat (n + 1) == QofNat n + 1)%Q.
Proof.
  unfold QofNat. rewrite Nat2Z.inj_add, inject_Z_plus. reflexivity.
Qed.

Lemma numberOfWeeks_step (sc : SizeCount) (a b : Size) :
  hasKeys sc ->
  (fst (numberOfWeeks (incrMax b (incrMin a sc))) == fst (numberOfWeeks sc) + weeksOf a)%Q /\
  (snd (numberOfWeeks (incrMax b (incrMin a sc))) == snd (numberOfWeeks sc) + weeksOf b)%Q.
Proof.
  intros Hkeys. six_entries sc Hkeys.
  unfold numberOfWeeks.
  destruct a, b; cbn [incrMin incrMax map fst snd Size_eqb fold_left addWeeks min max];
    rewrite ?QofNat_succ; split; ring.
Qed.

Lemma countSizes_weeks (sizes : list string) :
  forallb validSize sizes = true ->
  forall sc0, hasKeys sc0 ->
  exists sc,
    countSizes sizes sc0 = Some sc /\ hasKeys sc /\
    (fst (numberOfWeeks sc) == fst (numberOfWeeks sc0) + Qsum (map weeksMinOf sizes))%Q /\
    (snd (numberOfWeeks sc) == snd (numberOfWeeks sc0) + Qsum (map weeksMaxOf sizes))%Q.
Proof.
  induction sizes as [|s rest IH]; intros Hvalid sc0 Hkeys.
  - exists sc0. cbn. repeat split; auto; ring.
  - cbn [forallb] in Hvalid. apply andb_prop in Hvalid as [Hs Hrest].
    destruct (validSize_minMaxOf s Hs) as ([a b] & Hab).
    assert (Hkeys' : hasKeys (incrMax b (incrMin a sc0))) by auto with keys.
    destruct (IH Hrest _ Hkeys') as (sc & Hrun & Hk & Hmin & Hmax).
    destruct (numberOfWeeks_step sc0 a b Hkeys) as [Hmin1 Hmax1].
    assert (Ha : weeksMinOf s = weeksOf a) by (unfold weeksMinOf; now rewrite Hab).
    assert (Hb : weeksMaxOf s = weeksOf b) by (unfold weeksMaxOf; now rewrite Hab).
    exists sc. cbn [countSizes map].
    rewrite countSize_minMaxOf, Hab. cbn [bind fst snd].
    split; [exact Hrun|]. split; [exact Hk|].
    change (Qsum (weeksMinOf s :: map weeksMinOf rest))
      with (weeksMinOf s + Qsum (map weeksMinOf rest))%Q.
    change (Qsum (weeksMaxOf s :: map weeksMaxOf rest))
      with (weeksMaxOf s + Qsum (map weeksMaxOf rest))%Q.
    rewrite Ha, Hb, Hmin, Hmax, Hmin1, Hmax1. split; ring.
Qed.

(** The two results, read off the elements. *)
Lemma computeSizing_valid (sizes : list string) :
  forallb validSize sizes = true ->
  computeSizing sizes =
  Some {| sizeMin := getSizingFromNumberOfWeeks (Qsum (map weeksMinOf sizes));
          sizeMax := getSizingFromNumberOfWeeks (Qsum (map weeksMaxOf sizes)) |}.
Proof.
  intros Hvalid.
  destruct (countSizes_weeks sizes Hvalid sizeCount0 hasKeys_sizeCount0)
    as (sc & Hrun & _ & Hmin & Hmax).
  unfold computeSizing. rewrite Hrun. cbn [bind]. f_equal. f_equal.
  - apply getSizing_Qeq. rewrite Hmin.
    setoid_replace (fst (numberOfWeeks sizeCount0)) with 0%Q by reflexivity. ring.
  - apply getSizing_Qeq. rewrite Hmax.
    setoid_replace (snd (numberOfWeeks sizeCount0)) with 0%Q by reflexivity. ring.
Qed.

Lemma weeksMinOf_nonneg (s : string) : (0 <= weeksMinOf s)%Q.
Proof.
  unfold weeksMinOf. destruct (minMaxOf s) as [ab|]; [|lra].
  destruct (weeksOf_bounds (fst ab)); lra.
Qed.

Lemma weeksMaxOf_nonneg (s : string) : (0 <= weeksMaxOf s)%Q.
Proof.
  unfold weeksMaxOf. destruct (minMaxOf s) as [ab|]; [|lra].
  destruct (weeksOf_bounds (snd ab)); lra.
Qed.

Lemma Qsum_cons (x : Q) (l : list Q) : Qsum (x :: l) = (x + Qsum l)%Q.
Proof. reflexivity. Qed.

Lemma Qsum_app (l1 l2 : list Q) : (Qsum (l1 ++ l2)%list == Qsum l1 + Qsum l2)%Q.
Proof.
  induction l1 as [|x l1 IH]; cbn [app]; rewrite ?Qsum_cons; [cbn; ring|].
  rewrite IH. ring.
Qed.

Lemma Qsum_nonneg (f : string -> Q) (l : list string) :
  (forall s, 0 <= f s)%Q -> (0 <= Qsum (map f l))%Q.
Proof.
  intros Hf. induction l as [|x l IH]; cbn [map]; rewrite ?Qsum_cons; [cbn; lra|].
  specialize (Hf x). lra.
Qed.

Lemma Qsum_permutation (l1 l2 : list Q) :
  Permutation l1 l2 -> (Qsum l1 == Qsum l2)%Q.
Proof.
  induction 1 as [|x l1 l2 _ IH|x y l|l1 l2 l3 _ IH1 _ IH2];
    rewrite ?Qsum_cons; try rewrite IH; try ring.
  now rewrite IH1.
Qed.

Lemma forallb_permutation {A : Type} (p : A -> bool) (l1 l2 : list A) :
  Permutation l1 l2 -> forallb p l1 = true -> forallb p l2 = true.
Proof.
  intros Hperm H. rewrite forallb_forall in *. intros x Hx.
  apply H. eapply Permutation_in; [apply Permutation_sym|]; eassumption.
Qed.

(** X1. The two loops of [computeSizing] compose into plain sums: on
    validated elements the minimum number of weeks is the sum, over the
    elements, of the weight of the label counted on the [min] side, and
    the maximum number of weeks the same on the [max] side. *)
Theorem weeks_are_sums_over_elements (sizes : list string)
    (Hvalid : forallb validSize sizes = true) :
  exists sc,
    countSizes sizes sizeCount0 = Some sc /\
    (fst (numberOfWeeks sc) == Qsum (map weeksMinOf sizes))%Q /\
    (snd (numberOfWeeks sc) == Qsum (map weeksMaxOf sizes))%Q.
Proof.
  destruct (countSizes_weeks sizes Hvalid sizeCount0 hasKeys_sizeCount0)
    as (sc & Hrun & _ & Hmin & Hmax).
  exists sc. split; [exact Hrun|]. split.
  - rewrite Hmin.
    setoid_replace (fst (numberOfWeeks sizeCount0)) with 0%Q by reflexivity. ring.
  - rewrite Hmax.
    setoid_replace (snd (numberOfWeeks sizeCount0)) with 0%Q by reflexivity. ring.
Qed.

Lemma weeks_are_sums_over_elements_witness :
  forallb validSize ["XS"; "S/L"; "M"] = true /\
  exists sc,
    countSizes ["XS"; "S/L"; "M"] sizeCount0 = Some sc /\
    (fst (numberOfWeeks sc) == Qsum (map weeksMinOf ["XS"; "S/L"; "M"]))%Q /\
    (snd (numberOfWeeks sc) == Qsum (map weeksMaxOf ["XS"; "S/L"; "M"]))%Q.
Proof.
  split; [reflexivity|].
  exact (weeks_are_sums_over_elements ["XS"; "S/L"; "M"] eq_refl).
Defined.

(** X2. The order of the elements does not matter: two validated lists
    that are permutations of each other give the same two results. *)
Theorem computeSizing_permutation (sizes sizes' : list string)
    (Hvalid : forallb validSize sizes = true)
    (Hperm : Permutation sizes sizes') :
  computeSizing sizes = computeSizing sizes'.
Proof.
  rewrite (computeSizing_valid sizes Hvalid).
  rewrite (computeSizing_valid sizes' (forallb_permutation _ _ _ Hperm Hvalid)).
  f_equal. f_equal; apply getSizing_Qeq, Qsum_permutation, Permutation_map, Hperm.
Qed.

Lemma computeSizing_permutation_witness :
  forallb validSize ["XS"; "S/L"; "M"] = true /\
  Permutation ["XS"; "S/L"; "M"] ["S/L"; "M"; "XS"] /\
  computeSizing ["XS"; "S/L"; "M"] = computeSizing ["S/L"; "M"; "XS"].
Proof.
  assert (Hperm : Permutation ["XS"; "S/L"; "M"] ["S/L"; "M"; "XS"]).
  { apply (Permutation_cons_append ["S/L"; "M"] "XS"). }
  split; [reflexivity|]. split; [exact Hperm|].
  exact (computeSizing_permutation ["XS"; "S/L"; "M"] ["S/L"; "M"; "XS"] eq_refl Hperm).
Defined.

(** X3. Adding elements never lowers a result: on validated lists both
    results for [sizes ++ more] are at least the results for [sizes]. *)
Theorem computeSizing_grows (sizes more : list string)
    (Hvalid : forallb validSize (sizes ++ more)%list = true) :
  exists r r',
    computeSizing sizes = Some r /\
    computeSizing (sizes ++ more)%list = Some r' /\
    rank (sizeMin r) <= rank (sizeMin r') /\
    rank (sizeMax r) <= rank (sizeMax r').
Proof.
  assert (Hsizes : forallb validSize sizes = true).
  { rewrite forallb_app in Hvalid. now apply andb_prop in Hvalid as [H _]. }
  rewrite (computeSizing_valid _ Hsizes), (computeSizing_valid _ Hvalid).
  do 2 eexists. split; [reflexivity|]. split; [reflexivity|].
  cbn [sizeMin sizeMax]. rewrite !map_app.
  split; apply getSizing_rank_le; rewrite Qsum_app.
  - pose proof (Qsum_nonneg weeksMinOf more weeksMinOf_nonneg). lra.
  - pose proof (Qsum_nonneg weeksMaxOf more weeksMaxOf_nonneg). lra.
Qed.

Lemma computeSizing_grows_witness :
  forallb validSize (["S"; "XS/M"] ++ ["M/L"])%list = true /\
  exists r r',
    computeSizing ["S"; "XS/M"] = Some r /\
    computeSizing (["S"; "XS/M"] ++ ["M/L"])%list = Some r' /\
    rank (sizeMin r) <= rank (sizeMin r') /\
    rank (sizeMax r) <= rank (sizeMax r').
Proof.
  split; [reflexivity|].
  exact (computeSizing_grows ["S"; "XS/M"] ["M/L"] eq_refl).
Defined.

Lemma Qsum_member (f : string -> Q) (l : list string) (s : string) :
  (forall x, 0 <= f x)%Q -> In s l -> (f s <= Qsum (map f l))%Q.
Proof.
  intros Hf. induction l as [|x l IH]; intros Hin; [destruct Hin|].
  cbn [map]. rewrite Qsum_cons. destruct Hin as [->|Hin].
  - pose proof (Qsum_nonneg f l Hf). lra.
  - specialize (IH Hin). specialize (Hf x). lra.
Qed.

(** X4. A result is never below a part: on a validated list, the minimum
    result is at least the label any element counts on the [min] side, and
    the maximum result at least the label it counts on the [max] side. *)
Theorem result_at_least_each_element (sizes : list string) (s : string)
    (a b : Size)
    (Hvalid : forallb validSize sizes = true)
    (Hin : In s sizes)
    (Hab : minMaxOf s = Some (a, b)) :
  exists r,
    computeSizing sizes = Some r /\
    rank a <= rank (sizeMin r) /\ rank b <= rank (sizeMax r).
Proof.
  rewrite (computeSizing_valid sizes Hvalid). eexists. split; [reflexivity|].
  cbn [sizeMin sizeMax].
  rewrite <- (getSizing_weeksOf a) at 1. rewrite <- (getSizing_weeksOf b) at 1.
  assert (Ha : weeksMinOf s = weeksOf a) by (unfold weeksMinOf; now rewrite Hab).
  assert (Hb : weeksMaxOf s = weeksOf b) by (unfold weeksMaxOf; now rewrite Hab).
  split; apply getSizing_rank_le.
  - rewrite <- Ha. now apply Qsum_member; [apply weeksMinOf_nonneg|].
  - rewrite <- Hb. now apply Qsum_member; [apply weeksMaxOf_nonneg|].
Qed.

Lemma result_at_least_each_element_witness :
  forallb validSize ["XS"; "M/XL"; "S"] = true /\
  In "M/XL" ["XS"; "M/XL"; "S"] /\
  minMaxOf "M/XL" = Some (M, XL) /\
  exists r,
    computeSizing ["XS"; "M/XL"; "S"] = Some r /\
    rank M <= rank (sizeMin r) /\ rank XL <= rank (sizeMax r).
Proof.
  assert (Hin : In "M/XL" ["XS"; "M/XL"; "S"]) by (right; left; reflexivity).
  split; [reflexivity|]. split; [exact Hin|]. split; [reflexivity|].
  exact (result_at_least_each_element
           ["XS"; "M/XL"; "S"] "M/XL" M XL eq_refl Hin eq_refl).
Defined.





Lemma Qsum_le (f g : string -> Q) (l : list string) :
  (forall s, In s l -> f s <= g s)%Q ->
  (Qsum (map f l) <= Qsum (map g l))%Q.
Proof.
  induction l as [|x l IH]; intros Hfg; cbn [map]; rewrite ?Qsum_cons; [cbn; lra|].
  pose proof (Hfg x (or_introl eq_refl)).
  assert (Qsum (map f l) <= Qsum (map g l))%Q by (apply IH; intros s Hs; apply Hfg; now right).
  lra.
Qed.

(** X6. When every element is written smaller label first, the minimum
    result is at most the maximum result. *)
Theorem ordered_elements_ordered_results (sizes : list string)
    (Hvalid : forallb validSize sizes = true)
    (Hordered : forallb orderedSize sizes = true) :
  exists r,
    computeSizing sizes = Some r /\ rank (sizeMin r) <= rank (sizeMax r).
Proof.
  rewrite (computeSizing_valid sizes Hvalid). eexists. split; [reflexivity|].
  cbn [sizeMin sizeMax]. apply getSizing_rank_le, Qsum_le.
  intros s Hs. rewrite forallb_forall in Hordered. specialize (Hordered s Hs).
  unfold orderedSize, weeksMinOf, weeksMaxOf in *.
  destruct (minMaxOf s) as [ab|]; [|discriminate Hordered].
  apply weeksOf_rank_le. now apply Nat.leb_le.
Qed.

Lemma ordered_elements_ordered_results_witness :
  forallb validSize ["XS/S"; "M"; "S/XL"] = true /\
  forallb orderedSize ["XS/S"; "M"; "S/XL"] = true /\
  exists r,
    computeSizing ["XS/S"; "M"; "S/XL"] = Some r /\
    rank (sizeMin r) <= rank (sizeMax r).
Proof.
  split; [reflexivity|]. split; [reflexivity|].
  exact (ordered_elements_ordered_results ["XS/S"; "M"; "S/XL"] eq_refl eq_refl).
Defined.

(** * Further properties of the handler and of the page *)

(** The signals after an accepted text. *)
Lemma handleSetSignal_accepts (value : string) (st : Signals) :
  forallb validSize (splitSizes value) = true ->
  handleSetSignal value st =
  Returns
    {| size := value; error := "";
       minComputedSize :=
         Size_to_string (getSizingFromNumberOfWeeks
                           (Qsum (map weeksMinOf (splitSizes value))));
       maxComputedSize :=
         Size_to_string (getSizingFromNumberOfWeeks
                           (Qsum (map weeksMaxOf (splitSizes value)))) |}.
Proof.
  intros Hvalid. unfold handleSetSignal.
  rewrite Hvalid, (computeSizing_valid _ Hvalid). reflexivity.
Qed.

(** The signals after a rejected text. *)
Lemma handleSetSignal_refuses (value : string) (st : Signals) :
  forallb validSize (splitSizes value) = false ->
  handleSetSignal value st =
  Returns {| size := value; error := "Invalid formatting";
             minComputedSize := minComputedSize st;
             maxComputedSize := maxComputedSize st |}.
Proof. intros Hinvalid. unfold handleSetSignal. now rewrite Hinvalid. Qed.

Lemma Size_to_string_eqb (a b : Size) :
  String.eqb (Size_to_string a) (Size_to_string b) = Size_eqb a b.
Proof. destruct a, b; reflexivity. Qed.

Lemma Size_eqb_eq (a b : Size) : Size_eqb a b = true <-> a = b.
Proof. destruct a, b; cbn; split; intros H; congruence. Qed.

(** X7. What the page shows depends on the text typed last, not on what
    was typed before: from any two states of the signals, the same text
    gives the same page.  The sizes an error leaves in the signals are
    never shown. *)
Theorem page_depends_on_text_only (value : string) (st1 st2 : Signals) :
  onInput value st1 = onInput value st2.
Proof.
  unfold onInput.
  destruct (forallb validSize (splitSizes value)) eqn:Hvalid.
  - now rewrite !(handleSetSignal_accepts value _ Hvalid).
  - now rewrite !(handleSetSignal_refuses value _ Hvalid).
Qed.

(** X8. Typing the same text again changes nothing: the handler is
    idempotent on the signals. *)
Theorem handleSetSignal_idempotent (value : string) (st : Signals) :
  handleSetSignal value (signalsOf (handleSetSignal value st))
  = handleSetSignal value st.
Proof.
  destruct (forallb validSize (splitSizes value)) eqn:Hvalid.
  - now rewrite !(handleSetSignal_accepts value _ Hvalid).
  - now rewrite !(handleSetSignal_refuses value _ Hvalid).
Qed.

(** X9. The page after any text: the error message exactly when some
    candidate fails the test; otherwise one badge when the two results are
    the same label and the two badges [Min] and [Max] when they differ.
    The badges always carry labels. *)
Theorem page_result (value : string) (st : Signals) :
  inputValue (onInput value st) = value /\
  (forallb validSize (splitSizes value) = false ->
   result (onInput value st) = ErrorText "Invalid formatting") /\
  (forallb validSize (splitSizes value) = true ->
   exists r,
     computeSizing (splitSizes value) = Some r /\
     result (onInput value st) =
       if Size_eqb (sizeMin r) (sizeMax r)
       then OneSize (SizeComponent (Size_to_string (sizeMin r)))
       else MinMax_ (SizeComponent (Size_to_string (sizeMin r)))
                    (SizeComponent (Size_to_string (sizeMax r)))).
Proof.
  unfold onInput. split; [|split].
  - destruct (forallb validSize (splitSizes value)) eqn:Hvalid.
    + now rewrite (handleSetSignal_accepts value _ Hvalid).
    + now rewrite (handleSetSignal_refuses value _ Hvalid).
  - intros Hinvalid. now rewrite (handleSetSignal_refuses value _ Hinvalid).
  - intros Hvalid. rewrite (handleSetSignal_accepts value _ Hvalid).
    rewrite (computeSizing_valid _ Hvalid). eexists. split; [reflexivity|].
    cbn [signalsOf App result error minComputedSize maxComputedSize sizeMin sizeMax].
    rewrite Size_to_string_eqb. reflexivity.
Qed.

Lemma page_result_witness :
  forallb validSize (splitSizes "S, M/L") = true /\
  forallb validSize (splitSizes "S, FOO") = false /\
  result (onInput "S, FOO" signals0) = ErrorText "Invalid formatting" /\
  exists r,
    computeSizing (splitSizes "S, M/L") = Some r /\
    result (onInput "S, M/L" signals0) =
      if Size_eqb (sizeMin r) (sizeMax r)
      then OneSize (SizeComponent (Size_to_string (sizeMin r)))
      else MinMax_ (SizeComponent (Size_to_string (sizeMin r)))
                   (SizeComponent (Size_to_string (sizeMax r))).
Proof.
  split; [reflexivity|]. split; [reflexivity|]. split.
  - exact (proj1 (proj2 (page_result "S, FOO" signals0)) eq_refl).
  - exact (proj2 (proj2 (page_result "S, M/L" signals0)) eq_refl).
Defined.

(** X10. A text made of single labels only, without any pair, shows one
    badge: the two results coincide. *)
Theorem labels_only_one_badge (value : string) (st : Signals)
    (Hlabels : forallb (JS.Array_includes sizingKeys) (splitSizes value) = true) :
  exists l : Size,
    computeSizing (splitSizes value) = Some {| sizeMin := l; sizeMax := l |} /\
    result (onInput value st) = OneSize (SizeComponent (Size_to_string l)).
Proof.
  assert (Hvalid : forallb validSize (splitSizes value) = true).
  { rewrite forallb_forall in *. intros s Hs. unfold validSize.
    rewrite (Hlabels s Hs). reflexivity. }
  assert (Hsame : map weeksMinOf (splitSizes value) = map weeksMaxOf (splitSizes value)).
  { apply map_ext_in. intros s Hs. rewrite forallb_forall in Hlabels.
    destruct (Array_includes_keys s (Hlabels s Hs)) as [k ->].
    unfold weeksMinOf, weeksMaxOf, minMaxOf.
    rewrite key_without_slash, Size_of_to_string. reflexivity. }
  exists (getSizingFromNumberOfWeeks (Qsum (map weeksMaxOf (splitSizes value)))).
  split.
  - now rewrite (computeSizing_valid _ Hvalid), Hsame.
  - unfold onInput. rewrite (handleSetSignal_accepts value _ Hvalid), Hsame.
    cbn [signalsOf App result error minComputedSize maxComputedSize].
    rewrite !String.eqb_refl. reflexivity.
Qed.

Lemma labels_only_one_badge_witness :
  forallb (JS.Array_includes sizingKeys) (splitSizes "XS, S, M") = true /\
  exists l : Size,
    computeSizing (splitSizes "XS, S, M") = Some {| sizeMin := l; sizeMax := l |} /\
    result (onInput "XS, S, M" signals0) = OneSize (SizeComponent (Size_to_string l)).
Proof.
  split; [reflexivity|].
  exact (labels_only_one_badge "XS, S, M" signals0 eq_refl).
Defined.

(** X11. The badge has one colour per label: for a label exactly one
    class of [classList] is switched on, two different labels switch on
    different classes, and for any other text, such as the empty size the
    page starts with, no class is switched on.  The legend shows the keys
    of [sizingToWeeks], in their order. *)
Theorem SizeComponent_colours :
  (forall l : Size,
      exists c, activeClasses (SizeComponent (Size_to_string l)) = [c]) /\
  (forall a b : Size,
      activeClasses (SizeComponent (Size_to_string a))
      = activeClasses (SizeComponent (Size_to_string b)) -> a = b) /\
  (forall s : string,
      JS.Array_includes sizingKeys s = false ->
      activeClasses (SizeComponent s) = []) /\
  (forall st : Signals,
      map (fun row => children (fst row)) (legend (App st)) = sizingKeys).
Proof.
  split; [|split; [|split]].
  - intros l. destruct l; eexists; reflexivity.
  - intros a b. destruct a, b; cbn; intros H; solve [reflexivity | discriminate H].
  - intros s H. unfold JS.Array_includes, sizingKeys in H.
    cbn [sizingToWeeks map fst existsb Size_to_string] in H.
    repeat (apply orb_false_elim in H; destruct H as [?E H]).
    unfold SizeComponent, classList; cbn [activeClasses].
    now rewrite E, E0, E1, E2, E3, E4.
  - intros st. reflexivity.
Qed.

Lemma SizeComponent_colours_witness :
  JS.Array_includes sizingKeys "" = false /\
  activeClasses (SizeComponent "") = [].
Proof.
  split; [reflexivity|].
  exact (proj1 (proj2 (proj2 SizeComponent_colours)) "" eq_refl).
Defined.

(** * Further properties of the tokenizer *)

Lemma forallChars_app (p : ascii -> bool) (a b : string) :
  forallChars p (a ++ b) = forallChars p a && forallChars p b.
Proof.
  induction a as [|c a IH]; cbn [append forallChars]; [reflexivity|].
  now rewrite IH, andb_assoc.
Qed.

(** The second replacement only drops spaces. *)
Lemma replaceAllFrom_keeps (p : ascii -> bool) (s : string) :
  p " "%char = true ->
  forallChars p s = true ->
  forall skip, forallChars p (JS.replaceAllFrom "  " " " skip s) = true.
Proof.
  intros Hsp. induction s as [|c rest IH]; intros H skip; [reflexivity|].
  cbn [forallChars] in H. apply andb_prop in H as [Hc Hrest].
  destruct skip as [|k]; [|rewrite replaceAllFrom_skip; auto].
  rewrite replaceAllFrom_here.
  destruct (prefix "  " (String c rest)).
  - cbn [append forallChars]. now rewrite Hsp, IH.
  - cbn [forallChars]. now rewrite Hc, IH.
Qed.

Lemma trimStart_keeps (p : ascii -> bool) (s : string) :
  forallChars p s = true -> forallChars p (JS.trimStart s) = true.
Proof.
  induction s as [|c rest IH]; intros H; [reflexivity|].
  cbn [JS.trimStart]. destruct (JS.isWhiteSpace c); [|exact H].
  cbn [forallChars] in H. apply andb_prop in H as [_ Hrest]. auto.
Qed.

Lemma trimEnd_keeps (p : ascii -> bool) (s : string) :
  forallChars p s = true -> forallChars p (JS.trimEnd s) = true.
Proof.
  induction s as [|c rest IH]; intros H; [reflexivity|].
  cbn [forallChars] in H. apply andb_prop in H as [Hc Hrest].
  cbn [JS.trimEnd]. specialize (IH Hrest).
  destruct (JS.trimEnd rest) as [|d kept].
  - destruct (JS.isWhiteSpace c); cbn [forallChars]; [reflexivity | now rewrite Hc].
  - cbn [forallChars] in IH |- *. now rewrite Hc, IH.
Qed.

Lemma replaceAll_comma_no_comma (s : string) :
  forallChars (fun c => negb (Ascii.eqb c ",")) (JS.replaceAll "," " " s) = true.
Proof.
  induction s as [|c rest IH]; [reflexivity|].
  rewrite replaceAll_comma_cons. cbn [forallChars]. rewrite IH, andb_true_r.
  unfold commaToSpace. destruct (Ascii.eqb c ",") eqn:E; [reflexivity | now rewrite E].
Qed.

(** The pieces of a split keep the code units of the string and lose the
    separator. *)
Lemma split_keeps (p : ascii -> bool) (sep : ascii) (s : string) :
  forallChars p s = true ->
  forall piece, In piece (JS.split sep s) -> forallChars p piece = true.
Proof.
  induction s as [|c rest IH]; intros H piece Hin.
  - destruct Hin as [<-|[]]. reflexivity.
  - cbn [forallChars] in H. apply andb_prop in H as [Hc Hrest].
    cbn [JS.split] in Hin. destruct (Ascii.eqb c sep).
    + destruct Hin as [<-|Hin]; [reflexivity | now apply IH].
    + destruct (JS.split sep rest) as [|q qs] eqn:E.
      * destruct Hin as [<-|[]]. cbn [forallChars]. now rewrite Hc.
      * destruct Hin as [<-|Hin].
        -- cbn [forallChars]. rewrite Hc. apply (IH Hrest). now left.
        -- apply (IH Hrest). now right.
Qed.

Lemma split_without_separator (sep : ascii) (s : string) :
  forall piece, In piece (JS.split sep s) ->
  forallChars (fun c => negb (Ascii.eqb c sep)) piece = true.
Proof.
  induction s as [|c rest IH]; intros piece Hin.
  - destruct Hin as [<-|[]]. reflexivity.
  - cbn [JS.split] in Hin. destruct (Ascii.eqb c sep) eqn:Hc.
    + destruct Hin as [<-|Hin]; [reflexivity | now apply IH].
    + destruct (JS.split sep rest) as [|q qs] eqn:E.
      * destruct Hin as [<-|[]]. cbn [forallChars]. now rewrite Hc.
      * destruct Hin as [<-|Hin].
        -- cbn [forallChars]. rewrite Hc. apply IH. now left.
        -- apply IH. now right.
Qed.

(** X12. The candidates of any text: there is at least one, and none of
    them contains a comma or a space. *)
Theorem splitSizes_candidates (value : string) :
  splitSizes value <> [] /\
  forall s, In s (splitSizes value) ->
    forallChars (fun c => negb (isSeparator c)) s = true.
Proof.
  split; [apply split_not_nil|].
  intros s Hin. unfold splitSizes in Hin.
  assert (Hcomma : forallChars (fun c => negb (Ascii.eqb c ",")) s = true).
  { refine (split_keeps _ " " _ _ s Hin).
    apply trimEnd_keeps, trimStart_keeps, replaceAllFrom_keeps;
      [reflexivity | apply replaceAll_comma_no_comma]. }
  pose proof (split_without_separator " " _ s Hin) as Hspace.
  clear Hin. induction s as [|c s IH]; [reflexivity|].
  cbn [forallChars] in *.
  apply andb_prop in Hcomma as [Hc1 Hs1]. apply andb_prop in Hspace as [Hc2 Hs2].
  rewrite (IH Hs1 Hs2), andb_true_r. unfold isSeparator.
  apply negb_true_iff in Hc1, Hc2. now rewrite Hc1, Hc2.
Qed.

Lemma splitSizes_candidates_witness :
  In "S/M" (splitSizes "XS, S/M") /\
  forallChars (fun c => negb (isSeparator c)) "S/M" = true.
Proof.
  assert (Hin : In "S/M" (splitSizes "XS, S/M")) by (right; left; reflexivity).
  split; [exact Hin|].
  exact (proj2 (splitSizes_candidates "XS, S/M") "S/M" Hin).
Defined.

Lemma trimEnd_empty_trimStart (s : string) :
  JS.trimEnd s = "" -> JS.trimStart s = "".
Proof.
  induction s as [|c rest IH]; intros H; [reflexivity|].
  cbn [JS.trimEnd] in H. cbn [JS.trimStart].
  destruct (JS.trimEnd rest); [|discriminate H].
  destruct (JS.isWhiteSpace c); [auto | discriminate H].
Qed.

(** Trimming the two ends can be done in either order. *)
Lemma trim_comm (s : string) :
  JS.trimEnd (JS.trimStart s) = JS.trimStart (JS.trimEnd s).
Proof.
  induction s as [|c rest IH]; [reflexivity|].
  cbn [JS.trimStart JS.trimEnd].
  destruct (JS.isWhiteSpace c) eqn:Hc.
  - destruct (JS.trimEnd rest) as [|d kept] eqn:E.
    + rewrite (trimEnd_empty_trimStart rest E). reflexivity.
    + cbn [JS.trimStart]. rewrite Hc. exact IH.
  - cbn [JS.trimEnd].
    destruct (JS.trimEnd rest); cbn [JS.trimStart]; now rewrite Hc.
Qed.

(** A string is a run of spaces followed by a string that does not start
    with a space. *)
Lemma leading_spaces (w : string) :
  exists r w', w = r ++ w' /\ forallChars isSpace r = true /\ startsClean w' = true.
Proof.
  induction w as [|c w IH].
  - now exists "", "".
  - destruct (isSpace c) eqn:Hc.
    + destruct IH as (r & w' & -> & Hr & Hw').
      exists (String c r), w'. cbn [append forallChars]. now rewrite Hc, Hr.
    + exists "", (String c w). cbn [startsClean]. now rewrite Hc.
Qed.

Lemma forallChars_isSpace_app (a b : string) :
  forallChars isSpace a = true -> forallChars isSpace b = true ->
  forallChars isSpace (a ++ b) = true.
Proof. intros Ha Hb. now rewrite forallChars_app, Ha, Hb. Qed.

(** Spaces in front of a text are gone after the second replacement and
    the trimming of the start. *)
Lemma trimStart_collapse_lead (sp w : string) :
  forallChars isSpace sp = true ->
  JS.trimStart (JS.replaceAll "  " " " (sp ++ w))
  = JS.trimStart (JS.replaceAll "  " " " w).
Proof.
  intros Hsp. destruct (leading_spaces w) as (r & w' & -> & Hr & Hw').
  rewrite <- append_assoc. unfold JS.replaceAll.
  destruct (collapse_spaces (sp ++ r) w' (forallChars_isSpace_app _ _ Hsp Hr) Hw' 0)
    as (ws1 & Hws1 & ->); [now left|].
  destruct (collapse_spaces r w' Hr Hw' 0) as (ws2 & Hws2 & ->); [now left|].
  now rewrite !trimStart_spaces.
Qed.

(** Spaces behind a text are gone after the second replacement and the
    trimming of the end. *)
Lemma trimEnd_collapse_trail (sp : string) :
  forallChars isSpace sp = true ->
  forall w skip,
  JS.trimEnd (JS.replaceAllFrom "  " " " skip (w ++ sp))
  = JS.trimEnd (JS.replaceAllFrom "  " " " skip w).
Proof.
  intros Hsp.
  assert (Hall : forall skip s, forallChars isSpace s = true ->
            JS.trimEnd (JS.replaceAllFrom "  " " " skip s) = "").
  { intros skip s Hs. apply trimEnd_spaces, replaceAllFrom_keeps; [reflexivity | exact Hs]. }
  induction w as [|a w IH]; intros skip.
  - cbn [append]. rewrite (Hall skip sp Hsp). now destruct skip.
  - cbn [append]. destruct skip as [|k]; [|rewrite !replaceAllFrom_skip; apply IH].
    destruct w as [|b w'].
    + cbn [append]. destruct (isSpace a) eqn:Ha.
      * rewrite (Hall 0 (String a sp)), (Hall 0 (String a ""));
          cbn [forallChars]; rewrite ?Ha, ?Hsp; reflexivity.
      * rewrite !replaceAllFrom_here, !prefix_cons. unfold isSpace in Ha. rewrite Ha.
        cbn [andb JS.trimEnd]. specialize (IH 0). cbn [append] in IH. now rewrite IH.
    + rewrite !replaceAllFrom_here.
      assert (Hsame : prefix "  " (String a (String b w' ++ sp))
                      = prefix "  " (String a (String b w'))).
      { cbn [append]. now rewrite !prefix_cons, !prefix_nil. }
      rewrite Hsame. destruct (prefix "  " (String a (String b w'))).
      * cbn [append JS.trimEnd]. now rewrite IH.
      * cbn [JS.trimEnd]. now rewrite IH.
Qed.

(** X13. Separators around a text do not count: any commas and spaces put
    before the text and after it leave the candidates unchanged. *)
Theorem splitSizes_surrounding_separators (lead value trail : string)
    (Hlead : forallChars isSeparator lead = true)
    (Htrail : forallChars isSeparator trail = true) :
  splitSizes (lead ++ value ++ trail) = splitSizes value.
Proof.
  unfold splitSizes. f_equal. rewrite !replaceAll_comma_app.
  pose proof (replaceAll_comma_separators lead Hlead) as HL.
  pose proof (replaceAll_comma_separators trail Htrail) as HT.
  unfold JS.trim.
  rewrite (trimStart_collapse_lead _ _ HL), !trim_comm. f_equal.
  apply (trimEnd_collapse_trail _ HT).
Qed.

Lemma splitSizes_surrounding_separators_witness :
  forallChars isSeparator " ,  " = true /\
  forallChars isSeparator ",,, " = true /\
  splitSizes (" ,  " ++ "XS S/M" ++ ",,, ") = splitSizes "XS S/M".
Proof.
  split; [reflexivity|]. split; [reflexivity|].
  exact (splitSizes_surrounding_separators " ,  " "XS S/M" ",,, " eq_refl eq_refl).
Defined.

(** The second replacement works on each side of a code unit that is not
    a space. *)
Lemma collapse_app_nonspace (c : ascii) (rest : string) :
  Ascii.eqb c " " = false ->
  forall x skip, skip = 0 \/ (skip = 1 /\ x <> "") ->
  JS.replaceAllFrom "  " " " skip (x ++ String c rest)
  = JS.replaceAllFrom "  " " " skip x ++ String c (JS.replaceAll "  " " " rest).
Proof.
  intros Hc. induction x as [|a x IH]; intros skip Hskip.
  - destruct Hskip as [->|[_ Hne]]; [|congruence].
    cbn [append]. now apply collapse_other.
  - cbn [append]. destruct Hskip as [->|[-> _]].
    + rewrite !replaceAllFrom_here.
      assert (Hsame : prefix "  " (String a (x ++ String c rest))
                      = prefix "  " (String a x)).
      { rewrite !prefix_cons. f_equal. destruct x as [|b x'].
        - cbn [append]. now rewrite prefix_cons, Hc.
        - cbn [append]. now rewrite !prefix_cons, !prefix_nil. }
      rewrite Hsame. destruct (prefix "  " (String a x)) eqn:Hp.
      * change (String.length "  " - 1) with 1. cbn [append]. f_equal.
        apply IH. right. split; [reflexivity|].
        rewrite prefix_cons in Hp. apply andb_prop in Hp as [_ Hp].
        now destruct x.
      * cbn [append]. f_equal. apply IH. now left.
    + rewrite !replaceAllFrom_skip. apply IH. now left.
Qed.

(** Three spaces or more before a code unit that is not a space leave at
    least two. *)
Lemma collapse_long_run (sp : string) (d : ascii) (rest : string) :
  forallChars isSpace sp = true ->
  3 <= String.length sp ->
  Ascii.eqb d " " = false ->
  exists sp',
    JS.replaceAll "  " " " (sp ++ String d rest)
    = String " " (String " " (sp' ++ String d (JS.replaceAll "  " " " rest))).
Proof.
  intros Hsp Hlen Hd.
  destruct sp as [|a [|b [|c sp3]]]; cbn [String.length] in Hlen; try lia.
  cbn [forallChars] in Hsp.
  apply andb_prop in Hsp as [Ha Hsp]. apply andb_prop in Hsp as [Hb Hsp].
  apply andb_prop in Hsp as [Hc Hsp3].
  apply isSpace_eq in Ha, Hb, Hc; subst a b c.
  cbn [append]. rewrite collapse_pair. destruct sp3 as [|e sp4].
  - cbn [append]. rewrite (collapse_single d rest Hd). now exists "".
  - cbn [forallChars] in Hsp3. apply andb_prop in Hsp3 as [He Hsp4].
    apply isSpace_eq in He; subst e. cbn [append]. rewrite collapse_pair.
    assert (Hclean : startsClean (String d rest) = true).
    { cbn [startsClean]. unfold isSpace. now rewrite Hd. }
    destruct (collapse_spaces sp4 (String d rest) Hsp4 Hclean 0)
      as (ws & _ & Heq); [now left|].
    unfold JS.replaceAll at 1. rewrite Heq, (collapse_other d rest Hd).
    now exists ws.
Qed.

Lemma trimStart_upto (c : ascii) (a rest : string) :
  JS.isWhiteSpace c = false ->
  exists p, JS.trimStart (a ++ String c rest) = p ++ String c rest.
Proof.
  intros Hc. induction a as [|x a IH]; cbn [append JS.trimStart].
  - rewrite Hc. now exists "".
  - destruct (JS.isWhiteSpace x); [exact IH|].
    now exists (String x a).
Qed.

Lemma trimEnd_from (d : ascii) (x rest : string) :
  JS.isWhiteSpace d = false ->
  exists q, JS.trimEnd (x ++ String d rest) = x ++ String d q.
Proof.
  intros Hd. induction x as [|a x [q IH]]; cbn [append JS.trimEnd].
  - destruct (JS.trimEnd rest) as [|e kept]; rewrite ?Hd; eauto.
  - rewrite IH. destruct (x ++ String d q) eqn:E.
    + destruct x; discriminate E.
    + exists q. cbn [append]. now rewrite E.
Qed.

(** Two separators in a row give an empty piece after the first piece. *)
Lemma split_double (sep : ascii) (u v : string) :
  In "" (tl (JS.split sep (u ++ String sep (String sep v)))).
Proof.
  induction u as [|a u IH]; cbn [append JS.split].
  - rewrite !Ascii.eqb_refl. cbn [tl]. now left.
  - destruct (Ascii.eqb a sep).
    + cbn [tl]. destruct (JS.split sep (u ++ String sep (String sep v)));
        [destruct IH | now right].
    + destruct (JS.split sep (u ++ String sep (String sep v))); [destruct IH | exact IH].
Qed.

Lemma In_tl {A : Type} (x : A) (l : list A) : In x (tl l) -> In x l.
Proof. destruct l; [auto | now right]. Qed.

Lemma validSize_empty : validSize "" = false.
Proof. reflexivity. Qed.

(** X14. Three separators or more between two tokens are never accepted:
    whatever stands before and after, a text in which a code unit that is
    no comma and no white space is followed by at least three commas or
    spaces and then by another such code unit is answered with
    [Invalid formatting], the computed sizes being left as they were. *)
Theorem long_separator_rejected (before after sep : string) (c d : ascii)
    (st : Signals)
    (Hc : notBlank c = true) (Hd : notBlank d = true)
    (Hsep : forallChars isSeparator sep = true)
    (Hlen : 3 <= String.length sep) :
  In "" (splitSizes (before ++ String c sep ++ String d after)) /\
  handleSetSignal (before ++ String c sep ++ String d after) st =
  Returns {| size := before ++ String c sep ++ String d after;
             error := "Invalid formatting";
             minComputedSize := minComputedSize st;
             maxComputedSize := maxComputedSize st |}.
Proof.
  apply notBlank_inv in Hc as (Hc1 & Hc2 & Hc3).
  apply notBlank_inv in Hd as (Hd1 & Hd2 & Hd3).
  assert (Hin : In "" (splitSizes (before ++ String c sep ++ String d after))).
  { unfold splitSizes.
    change (String c sep ++ String d after) with (String c (sep ++ String d after)).
    rewrite replaceAll_comma_app, replaceAll_comma_cons, replaceAll_comma_app,
      replaceAll_comma_cons.
    unfold commaToSpace. rewrite Hc1, Hd1.
    unfold JS.replaceAll at 1.
    rewrite (collapse_app_nonspace c _ Hc2 _ 0) by now left.
    assert (Hlen' : 3 <= String.length (JS.replaceAll "," " " sep)).
    { clear - Hlen. revert Hlen. generalize 3.
      induction sep as [|x sep IH]; intros n Hn; [exact Hn|].
      rewrite replaceAll_comma_cons. cbn [String.length] in *.
      destruct n; [lia|]. apply le_n_S, IH. lia. }
    destruct (collapse_long_run _ d (JS.replaceAll "," " " after)
                (replaceAll_comma_separators sep Hsep) Hlen' Hd2) as (sp' & ->).
    unfold JS.trim.
    destruct (trimStart_upto c (JS.replaceAllFrom "  " " " 0 (JS.replaceAll "," " " before))
                (String " " (String " " (sp' ++ String d
                   (JS.replaceAll "  " " " (JS.replaceAll "," " " after))))) Hc3)
      as (p & ->).
    change (p ++ String c (String " " (String " " (sp' ++ String d
              (JS.replaceAll "  " " " (JS.replaceAll "," " " after))))))
      with (p ++ String c (String " " (String " " sp') ++ String d
              (JS.replaceAll "  " " " (JS.replaceAll "," " " after)))).
    change (String c (String " " (String " " sp') ++ String d
              (JS.replaceAll "  " " " (JS.replaceAll "," " " after))))
      with ((String c (String " " (String " " sp'))) ++ String d
              (JS.replaceAll "  " " " (JS.replaceAll "," " " after))).
    rewrite <- append_assoc.
    destruct (trimEnd_from d (p ++ String c (String " " (String " " sp')))
                (JS.replaceAll "  " " " (JS.replaceAll "," " " after)) Hd3)
      as (q & ->).
    rewrite append_assoc.
    change (String c (String " " (String " " sp')) ++ String d q)
      with (String c "" ++ String " " (String " " (sp' ++ String d q))).
    rewrite <- append_assoc.
    apply In_tl, split_double. }
  split; [exact Hin|].
  apply handleSetSignal_rejects, existsb_exists.
  exists "". split; [exact Hin | reflexivity].
Qed.

Lemma long_separator_rejected_witness :
  notBlank "S" = true /\ notBlank "M" = true /\
  forallChars isSeparator " , " = true /\ 3 <= String.length " , " /\
  handleSetSignal ("X" ++ String "S" " , " ++ String "M" " L") signals0 =
  Returns {| size := "X" ++ String "S" " , " ++ String "M" " L";
             error := "Invalid formatting";
             minComputedSize := ""; maxComputedSize := "" |}.
Proof.
  assert (Hlen : 3 <= String.length " , ") by (vm_compute; lia).
  split; [reflexivity|]. split; [reflexivity|]. split; [reflexivity|].
  split; [exact Hlen|].
  exact (proj2 (long_separator_rejected "X" " L" " , " "S" "M" signals0
                  eq_refl eq_refl eq_refl Hlen)).
Defined.

(** * Further properties of the validation *)

Lemma joinWith_cons (c : ascii) (p : string) (rest : list (string * string)) :
  joinWith (String c p) rest = String c (joinWith p rest).
Proof. destruct rest as [|[sep t] rest]; reflexivity. Qed.

(** Joining the pieces of a split with the separator gives the string
    back. *)
Lemma split_join (sep : ascii) (s : string) :
  exists p ps,
    JS.split sep s = p :: ps /\
    s = joinWith p (map (fun q => (String sep "", q)) ps).
Proof.
  induction s as [|c rest (p & ps & Hsplit & Hjoin)].
  - now exists "", [].
  - cbn [JS.split]. rewrite Hsplit. destruct (Ascii.eqb c sep) eqn:Hc.
    + apply Ascii.eqb_eq in Hc; subst c.
      exists "", (p :: ps). split; [reflexivity|].
      cbn [map joinWith append]. now rewrite <- Hjoin.
    + exists (String c p), ps. split; [reflexivity|].
      now rewrite joinWith_cons, <- Hjoin.
Qed.

Lemma split_piece_app (sep : ascii) (t rest : string) :
  JS.includes t (String sep "") = false ->
  JS.split sep (t ++ String sep rest) = t :: JS.split sep rest.
Proof.
  induction t as [|c t IH]; intros H.
  - cbn [append JS.split]. now rewrite Ascii.eqb_refl.
  - rewrite includes_one_cons in H. apply orb_false_elim in H as [Hc Ht].
    cbn [append JS.split]. now rewrite Hc, (IH Ht).
Qed.

Lemma split_slashJoined (ls : list Size) :
  forall l, JS.split "/" (slashJoined l ls)
            = Size_to_string l :: map Size_to_string ls.
Proof.
  unfold slashJoined. induction ls as [|k ls IH]; intros l; cbn [map joinWith].
  - apply split_without, key_without_slash.
  - cbn [append]. rewrite (split_piece_app "/" _ _ (key_without_slash l)).
    now rewrite IH.
Qed.

Lemma keys_are_labels (pieces : list string) :
  forallb (fun p => JS.Array_includes sizingKeys p) pieces = true ->
  exists ls, pieces = map Size_to_string ls.
Proof.
  induction pieces as [|p pieces IH]; intros H; [now exists []|].
  cbn [forallb] in H. apply andb_prop in H as [Hp Hrest].
  destruct (Array_includes_keys p Hp) as [k ->].
  destruct (IH Hrest) as [ls ->]. now exists (k :: ls).
Qed.

Lemma labels_are_keys (ls : list Size) :
  forallb (fun p => JS.Array_includes sizingKeys p) (map Size_to_string ls) = true.
Proof.
  induction ls as [|k ls IH]; [reflexivity|].
  cbn [map forallb]. rewrite IH, andb_true_r. now destruct k.
Qed.

(** X15. The test of the handler accepts exactly the labels written with
    slashes between them, one label or more: a candidate passes if and
    only if it is [L1], [L1/L2], [L1/L2/L3], ... for labels [Li].  No
    empty piece, no other code unit and no other case of the letters
    passes. *)
Theorem validSize_iff_slashJoined (s : string) :
  validSize s = true <-> exists l ls, s = slashJoined l ls.
Proof.
  rewrite validSize_pieces. split.
  - intros Hvalid. destruct (split_join "/" s) as (p & ps & Hsplit & Hjoin).
    rewrite Hsplit in Hvalid.
    destruct (keys_are_labels _ Hvalid) as [[|l ls] Hls]; [discriminate Hls|].
    cbn [map] in Hls. injection Hls as -> ->.
    exists l, ls. rewrite Hjoin. unfold slashJoined. now rewrite map_map.
  - intros (l & ls & ->). rewrite split_slashJoined.
    apply (labels_are_keys (l :: ls)).
Qed.

Lemma validSize_iff_slashJoined_witness :
  validSize "S/XL" = true /\ exists l ls, "S/XL" = slashJoined l ls.
Proof.
  split; [reflexivity|].
  exact (proj1 (validSize_iff_slashJoined "S/XL") eq_refl).
Defined.

(** X16. What the aggregator reads of an accepted candidate: a single
    label counts on both sides; of labels joined by slashes the first
    counts on the [min] side and the second on the [max] side, and the
    labels after the second are not read. *)
Theorem minMaxOf_slashJoined (l : Size) (ls : list Size) (sc : SizeCount) :
  minMaxOf (slashJoined l ls) = Some (l, hd l ls) /\
  countSize (slashJoined l ls) sc = Some (incrMax (hd l ls) (incrMin l sc)).
Proof.
  assert (H : minMaxOf (slashJoined l ls) = Some (l, hd l ls)).
  { unfold minMaxOf. destruct ls as [|k ls].
    - unfold slashJoined; cbn [map joinWith hd].
      now rewrite key_without_slash, Size_of_to_string.
    - rewrite split_slashJoined. cbn [map nth_error bind hd].
      rewrite !Size_of_to_string. cbn [bind].
      assert (Hslash : JS.includes (slashJoined l (k :: ls)) "/" = true).
      { unfold slashJoined; cbn [map joinWith append].
        generalize (joinWith (Size_to_string k)
                      (map (fun k0 => ("/", Size_to_string k0)) ls)).
        intros rest.
        destruct l; cbn [Size_to_string append]; rewrite !includes_one_cons;
          reflexivity. }
      now rewrite Hslash. }
  split; [exact H|]. now rewrite countSize_minMaxOf, H.
Qed.

(** X17. The cast of the validated array is safe at run time: on
    elements that pass the test [computeSizing] indexes [sizeCount] with
    labels only and returns, so no call of the handler ever throws. *)
Theorem validated_input_never_throws :
  (forall sizes : list string,
      forallb validSize sizes = true -> computeSizing sizes <> None) /\
  (forall (value : string) (st : Signals),
      exists st', handleSetSignal value st = Returns st').
Proof.
  split.
  - intros sizes Hvalid. now rewrite (computeSizing_valid sizes Hvalid).
  - intros value st.
    destruct (forallb validSize (splitSizes value)) eqn:Hvalid.
    + rewrite (handleSetSignal_accepts value st Hvalid). eauto.
    + rewrite (handleSetSignal_refuses value st Hvalid). eauto.
Qed.

Lemma validated_input_never_throws_witness :
  forallb validSize ["XS/S/M"; "L"] = true /\
  computeSizing ["XS/S/M"; "L"] <> None.
Proof.
  split; [reflexivity|].
  exact (proj1 validated_input_never_throws ["XS/S/M"; "L"] eq_refl).
Defined.
